(** * Ego-vehicle trajectory prediction

    A shallow embedding of [Ego Vehicle/EgoTrajPrediction.py]: the two
    open-loop motion models (constant acceleration, constant turn rate and
    velocity), the model selection of [run], and [predictionValidator].

    Number domains.  Python scalars ([self.dt], [self.T], the loop clock
    [t], the fields of the odometry message, the speed [vel] of [run]) are
    IEEE-754 binary64 values and are modelled by Rocq's primitive floats,
    so that loop counts, [int(T / dt)] and overflows are the ones Python
    computes.
    The contents of numpy arrays, and the arithmetic that produces them,
    are modelled over the real numbers; a binary64 scalar enters an array
    through [F2R], the real it denotes.

    What this reading covers.  Exceptions are decided on the binary64
    values: [x ** 2] raises [OverflowError] as Python does, and [math.cos]
    and [math.sin] raise [ValueError] on an angle beyond the binary64
    range.  Values inside arrays are exact reals: rounding inside numpy
    (whose summation order the source does not fix) is not modelled, so a
    statement on array contents holds of the code up to rounding, and a
    property that rounding can break (positive semi-definiteness, exact
    symmetry) is a property of the exact recurrence only; [ca_Q_b64] gives
    the process noise of the constant-acceleration model as binary64
    computes it.  The reals hold no infinity and no nan: [F2R] is meant for
    finite values, and a turn rate of zero (on which the code divides,
    filling its arrays with nan) and non-finite inputs are outside the
    reading; the theorems that state that a call returns, or a property of
    the covariance, exclude them by hypothesis. *)

From Stdlib Require Import String Floats ZArith Reals Lra Lia Bool List.
From Stdlib Require Import FunctionalExtensionality.
Import ListNotations.
Local Open Scope R_scope.

(** ** numpy arrays

    A one-dimensional array is its index function, a two-dimensional array
    a function of row and column.  Shapes are those the source fixes (6 for
    the constant-acceleration state, 5 for the turn-rate state); the
    operations take the contracted dimension as an argument. *)

Module Np.

Definition vec := nat -> R.
Definition mat := nat -> nat -> R.

(** [np.array([...])] and [np.array([[...], ...])]. *)
Definition array1 (l : list R) : vec := fun i => nth i l 0.
Definition array2 (rows : list (list R)) : mat :=
  fun i j => nth j (nth i rows []) 0.

Fixpoint sum (n : nat) (f : nat -> R) : R :=
  match n with
  | O => 0
  | S m => sum m f + f m
  end.

(** [np.matmul] of a matrix with a vector, and of two matrices, contracting
    [n] indices. *)
Definition matvec (n : nat) (A : mat) (x : vec) : vec :=
  fun i => sum n (fun k => A i k * x k).
Definition matmul (n : nat) (A B : mat) : mat :=
  fun i j => sum n (fun k => A i k * B k j).

(** [A.T], [A + B], [A * c], [np.zeros], [np.diag]. *)
Definition transpose (A : mat) : mat := fun i j => A j i.
Definition madd (A B : mat) : mat := fun i j => A i j + B i j.
Definition mscale (A : mat) (c : R) : mat := fun i j => A i j * c.
Definition zeros : mat := fun _ _ => 0.
Definition diag (d : list R) : mat :=
  fun i j => if Nat.eqb i j then nth i d 0 else 0.

(** Equality on the indices of an [n]-vector and of an [n x n] matrix. *)
Definition veq (n : nat) (x y : vec) : Prop :=
  forall i, (i < n)%nat -> x i = y i.
Definition meq (n : nat) (A B : mat) : Prop :=
  forall i j, (i < n)%nat -> (j < n)%nat -> A i j = B i j.

Definition trace (n : nat) (P : mat) : R := sum n (fun i => P i i).
Definition quad (n : nat) (P : mat) (v : vec) : R :=
  sum n (fun i => sum n (fun j => v i * P i j * v j)).
Definition symmetric (n : nat) (P : mat) : Prop :=
  forall i j, (i < n)%nat -> (j < n)%nat -> P i j = P j i.
Definition psd (n : nat) (P : mat) : Prop :=
  forall v : vec, 0 <= quad n P v.

End Np.
Import Np.

(** ** Python scalars *)

Inductive exn : Set :=
| ZeroDivisionError
| OverflowError
| ValueError
| IndexError
| UnboundLocalError.

(** The real number a finite binary64 value denotes.  An infinity or a nan
    denotes no real; the function gives 0 there, and a theorem whose
    outcome depends on such a value excludes it by hypothesis. *)
Definition F2R (x : float) : R :=
  match Prim2SF x with
  | S754_finite s m e =>
      (if s then -1 else 1) * IZR (Zpos m) * powerRZ 2 e
  | _ => 0
  end.

(** [a / b] on Python floats. *)
Definition truediv (a b : float) : exn + float :=
  if PrimFloat.eqb b 0%float then inl ZeroDivisionError
  else inr (PrimFloat.div a b).

(** [int(x)] on a Python float: truncation towards zero. *)
Definition int (x : float) : exn + Z :=
  match Prim2SF x with
  | S754_zero _ => inr 0%Z
  | S754_infinity _ => inl OverflowError
  | S754_nan => inl ValueError
  | S754_finite s m e =>
      let mag := Z.shiftl (Zpos m) e in
      inr (if s then (- mag)%Z else mag)
  end.

(** [x ** 2] on a Python float, the correctly rounded square.  For a finite
    [x] whose square is beyond the binary64 range ([|x| >= 2^512]) Python
    raises [OverflowError]; an infinite [x] or a nan gives an infinity or a
    nan, and no exception. *)
Definition float_pow2 (x : float) : exn + float :=
  let y := PrimFloat.mul x x in
  if PrimFloat.is_finite x && PrimFloat.is_infinity y
  then inl OverflowError
  else inr y.

(** The binary64 range: an array entry of this magnitude or more is an
    infinite value in the code. *)
Definition binary64_range : R := 2 ^ 1024.

(** [cos] and [sin] of the source, [math.cos] and [math.sin] behind a
    lambda: [ValueError] on an infinite angle. *)
Definition math_cos (theta : R) : exn + R :=
  if Rlt_dec (Rabs theta) binary64_range then inr (cos theta)
  else inl ValueError.
Definition math_sin (theta : R) : exn + R :=
  if Rlt_dec (Rabs theta) binary64_range then inr (sin theta)
  else inl ValueError.

(** The literal [0.1] of the source, as the binary64 value Python reads. *)
Definition lit_0_1 : float := 0x1.999999999999ap-4%float.
(** The literal [0.01]. *)
Definition lit_0_01 : float := 0x1.47ae147ae147bp-7%float.
(** The literals [8.8] and [0.5]. *)
Definition lit_8_8 : float := 0x1.199999999999ap+3%float.
Definition lit_0_5 : float := 0x1p-1%float.

(** A Python slice [l[start:stop]] of a sequence, negative bounds counting
    from the end and every bound clipped to the length. *)
Definition clip (len i : Z) : Z :=
  if (i <? 0)%Z then Z.max 0 (len + i) else Z.min i len.
Definition slice {A : Type} (l : list A) (start stop : Z) : list A :=
  let len := Z.of_nat (length l) in
  let lo := clip len start in
  let hi := clip len stop in
  firstn (Z.to_nat (hi - lo)) (skipn (Z.to_nat lo) l).

(** ** Program state *)

(** The fields of a [nav_msgs/Odometry] message that [run] reads. *)
Record Odometry : Set := {
  position_x : float;
  position_y : float;
  orientation_x : float;
  orientation_y : float;
  orientation_z : float;
  orientation_w : float;
  linear_x : float;
  linear_y : float;
  angular_z : float
}.

(** [Odometry()]: the numeric fields of a fresh message are zero. *)
Definition Odometry_new : Odometry :=
  {| position_x := 0; position_y := 0;
     orientation_x := 0; orientation_y := 0;
     orientation_z := 0; orientation_w := 0;
     linear_x := 0; linear_y := 0; angular_z := 0 |}%float.

Record EgoTrajPrediction : Set := {
  dt : float;
  T : float;
  last_odom_msg : Odometry
}.

(** What [print] writes. *)
Inductive printed : Type :=
| OutStr (s : string)
| OutNum (r : R).

(** The [visualization_msgs/Marker] that [visualize] fills in (its time
    stamp is left out). *)
Record Marker : Type := {
  frame_id : string;
  ns : string;
  type : Z;
  action : Z;
  points : list (R * R * R);
  scale_x : R;
  color_a : R;
  color_r : R;
  color_g : R;
  color_b : R
}.

(** The object, the module globals [ODOM] and [VALIDATOR_COUNTER], and the
    two output channels. *)
Record World : Type := {
  self : EgoTrajPrediction;
  ODOM : list (R * R);
  VALIDATOR_COUNTER : Z;
  stdout : list printed;
  published : list Marker
}.

(** ** Effects: state, exceptions, and loops that run out of fuel *)

Inductive outcome (A : Type) : Type :=
| Return (a : A)
| Raise (e : exn)
| Diverge.
Arguments Return {A} a.
Arguments Raise {A} e.
Arguments Diverge {A}.

Definition Py (A : Type) : Type := World -> outcome A * World.

Definition ret {A : Type} (a : A) : Py A := fun w => (Return a, w).
Definition bind {A B : Type} (m : Py A) (k : A -> Py B) : Py B :=
  fun w =>
    match m w with
    | (Return a, w') => k a w'
    | (Raise e, w') => (Raise e, w')
    | (Diverge, w') => (Diverge, w')
    end.

Notation "x <- c1 ;; c2" := (bind c1 (fun x => c2))
  (at level 61, c1 at next level, right associativity).
Notation "' pat <- c1 ;; c2" :=
  (bind c1 (fun x => match x with pat => c2 end))
  (at level 61, pat pattern, c1 at next level, right associativity).
Notation "c1 ;; c2" := (bind c1 (fun _ => c2))
  (at level 61, right associativity).

Definition raise {A : Type} (e : exn) : Py A := fun w => (Raise e, w).
Definition diverge {A : Type} : Py A := fun w => (Diverge, w).
Definition lift {A : Type} (r : exn + A) : Py A :=
  match r with
  | inl e => raise e
  | inr a => ret a
  end.

(** [try: m except: h] with a bare [except]. *)
Definition try_except {A : Type} (m h : Py A) : Py A :=
  fun w =>
    match m w with
    | (Raise _, w') => h w'
    | r => r
    end.

Definition get_self : Py EgoTrajPrediction := fun w => (Return (self w), w).
Definition get_ODOM : Py (list (R * R)) := fun w => (Return (ODOM w), w).
Definition get_VALIDATOR_COUNTER : Py Z :=
  fun w => (Return (VALIDATOR_COUNTER w), w).
Definition set_VALIDATOR_COUNTER (c : Z) : Py unit :=
  fun w =>
    (Return tt,
     {| self := self w; ODOM := ODOM w; VALIDATOR_COUNTER := c;
        stdout := stdout w; published := published w |}).
Definition set_last_odom_msg (odom : Odometry) : Py unit :=
  fun w =>
    (Return tt,
     {| self := {| dt := dt (self w); T := T (self w);
                   last_odom_msg := odom |};
        ODOM := ODOM w; VALIDATOR_COUNTER := VALIDATOR_COUNTER w;
        stdout := stdout w; published := published w |}).
Definition print (p : printed) : Py unit :=
  fun w =>
    (Return tt,
     {| self := self w; ODOM := ODOM w;
        VALIDATOR_COUNTER := VALIDATOR_COUNTER w;
        stdout := stdout w ++ [p]; published := published w |}).
Definition publish (m : Marker) : Py unit :=
  fun w =>
    (Return tt,
     {| self := self w; ODOM := ODOM w;
        VALIDATOR_COUNTER := VALIDATOR_COUNTER w;
        stdout := stdout w; published := published w ++ [m] |}).

(** ** [__init__] *)

Definition init (dt T : float) : outcome EgoTrajPrediction :=
  Return {| dt := dt; T := T; last_odom_msg := Odometry_new |}.

(** ** The constant-acceleration model *)

(** The transition matrix [A], the noise gain [G] and the process noise
    [Q = G G^T sa^2] that [constantAcceleration] builds from [dt], with
    exact arithmetic. *)
Definition ca_A (dt : R) : mat :=
  array2
    [ [1; 0; dt; 0; 1 / 2 * dt ^ 2; 0];
      [0; 1; 0; dt; 0; 1 / 2 * dt ^ 2];
      [0; 0; 1; 0; dt; 0];
      [0; 0; 0; 1; 0; dt];
      [0; 0; 0; 0; 1; 0];
      [0; 0; 0; 0; 0; 1] ].

Definition ca_G (dt : R) : mat :=
  array2 [ [1 / 2 * dt ^ 2]; [1 / 2 * dt ^ 2]; [dt]; [dt]; [1]; [1] ].

Definition ca_Q (dt : R) : mat :=
  let sa := 1 / 10 in
  let G := ca_G dt in
  mscale (matmul 1 G (transpose G)) (sa ^ 2).

(** The loop [while t <= T] of [constantAcceleration]; [fuel] bounds the
    number of tests of the loop condition. *)
Fixpoint ca_while (fuel : nat) (A Q : mat) (T t : float)
    (x_old : vec) (P_old : mat)
    (stateSpacePrediction : list vec) (covarianceTotal : list mat)
    : option (list vec * list mat) :=
  match fuel with
  | O => None
  | S fuel' =>
      if PrimFloat.leb t T then
        let x_new := matvec 6 A x_old in
        let stateSpacePrediction := stateSpacePrediction ++ [x_new] in
        let P_new := madd (matmul 6 A (matmul 6 P_old (transpose A))) Q in
        let covarianceTotal := covarianceTotal ++ [P_new] in
        ca_while fuel' A Q T (PrimFloat.add t lit_0_1) x_new P_new
          stateSpacePrediction covarianceTotal
      else Some (stateSpacePrediction, covarianceTotal)
  end.


(** [dt ** 2] is evaluated four times before the loop (twice for [A], twice
    for [G]) on the same Python float: the first evaluation raises if any
    does. *)
Definition constantAcceleration (xPos yPos xVel yVel xAcc yAcc : R)
    (fuel : nat) : Py (list vec * list mat) :=
  self <- get_self ;;
  _ <- lift (float_pow2 (dt self)) ;;
  let dt := F2R (dt self) in
  let T := T self in
  let A := ca_A dt in
  let x_0 := array1 [xPos; yPos; xVel; yVel; xAcc; yAcc] in
  let Q := ca_Q dt in
  let P_0 := zeros in
  match ca_while fuel A Q T 0%float x_0 P_0 [] [] with
  | Some r => ret r
  | None => diverge
  end.

(** ** The constant-turn-rate model *)

(** The squares that [constantTurnRate] takes of Python floats before its
    loop: [dt ** 2], then the four noise scales squared when [Q] is built
    ([sGPS ** 2] twice).  Each can raise [OverflowError]. *)
Definition ctrv_noise (dt : float) : exn + unit :=
  match float_pow2 dt with
  | inl e => inl e
  | inr dt2 =>
      let sGPS := PrimFloat.mul (PrimFloat.mul lit_0_5 lit_8_8) dt2 in
      let sCourse := PrimFloat.mul lit_0_1 dt in
      let sVelocity := PrimFloat.mul lit_8_8 dt in
      let sYaw := PrimFloat.mul 1%float dt in
      match float_pow2 sGPS, float_pow2 sCourse,
            float_pow2 sVelocity, float_pow2 sYaw with
      | inr _, inr _, inr _, inr _ => inr tt
      | _, _, _, _ => inl OverflowError
      end
  end.

Definition ctrv_Q (dt : R) : mat :=
  let sGPS := 5 / 10 * (88 / 10) * dt ^ 2 in
  let sCourse := 1 / 10 * dt in
  let sVelocity := 88 / 10 * dt in
  let sYaw := 1 * dt in
  diag [sGPS ^ 2; sGPS ^ 2; sCourse ^ 2; sVelocity ^ 2; sYaw ^ 2].

(** The angles on which the loop body calls [cos] and [sin]: the heading
    [yaw] (first, in [A13]) and [dt * yawRate + yaw].  The body raises
    [ValueError] when one of them is infinite. *)
Definition ctrv_angles (dt : R) (x_old : vec) : exn + unit :=
  let yaw := x_old 2%nat in
  let yawRate := x_old 4%nat in
  match math_cos yaw, math_cos (dt * yawRate + yaw) with
  | inr _, inr _ => inr tt
  | _, _ => inl ValueError
  end.

(** The transition matrix the loop body builds from the current state,
    once [cos] and [sin] have returned.  The code divides by the turn rate:
    the matrix describes it for a turn rate other than 0 (at 0 numpy gives
    infinities and nan, which the reals do not hold). *)
Definition ctrv_A (dt : R) (x_old : vec) : mat :=
  let yaw := x_old 2%nat in
  let vel := x_old 3%nat in
  let yawRate := x_old 4%nat in
  let A13 := vel / yawRate * (- cos yaw + cos (dt * yawRate + yaw)) in
  let A14 := 1 / yawRate * (- sin yaw + sin (dt * yawRate + yaw)) in
  let A15 :=
    dt * vel / yawRate * cos (dt * yawRate + yaw)
    - vel / (yawRate ^ 2) * (- sin yaw + sin (dt * yawRate + yaw)) in
  let A23 := vel / yawRate * (- sin yaw + sin (dt * yawRate + yaw)) in
  let A24 := 1 / yawRate * (cos yaw - cos (dt * yawRate + yaw)) in
  let A25 :=
    dt * vel / yawRate * sin (dt * yawRate + yaw)
    - vel / (yawRate ^ 2) * (cos yaw - cos (dt * yawRate + yaw)) in
  array2
    [ [1; 0; A13; A14; A15];
      [0; 1; A23; A24; A25];
      [0; 0; 1; 0; dt];
      [0; 0; 0; 1; 0];
      [0; 0; 0; 0; 1] ].

Fixpoint ctrv_while (fuel : nat) (dt : R) (Q : mat) (T t : float)
    (x_old : vec) (P_old : mat)
    (stateSpacePrediction : list vec) (covarianceTotal : list mat)
    : option (exn + list vec * list mat) :=
  match fuel with
  | O => None
  | S fuel' =>
      if PrimFloat.leb t T then
        match ctrv_angles dt x_old with
        | inl e => Some (inl e)
        | inr _ =>
            let A := ctrv_A dt x_old in
            let x_new := matvec 5 A x_old in
            let stateSpacePrediction := stateSpacePrediction ++ [x_new] in
            let P_new :=
              madd (matmul 5 A (matmul 5 P_old (transpose A))) Q in
            let covarianceTotal := covarianceTotal ++ [P_new] in
            ctrv_while fuel' dt Q T (PrimFloat.add t lit_0_1) x_new P_new
              stateSpacePrediction covarianceTotal
        end
      else Some (inr (stateSpacePrediction, covarianceTotal))
  end.

Definition constantTurnRate (xPos yPos yaw vel yawRate : R) (fuel : nat)
    : Py (list vec * list mat) :=
  self <- get_self ;;
  _ <- lift (ctrv_noise (dt self)) ;;
  let dt := F2R (dt self) in
  let T := T self in
  let Q := ctrv_Q dt in
  let x_0 := array1 [xPos; yPos; yaw; vel; yawRate] in
  let P_0 := zeros in
  match ctrv_while fuel dt Q T 0%float x_0 P_0 [] [] with
  | Some r => lift r
  | None => diverge
  end.

(** ** [ROSCallback], [visualize], [predictionValidator] and [run] *)

Definition ROSCallback (odom : Odometry) : Py unit :=
  set_last_odom_msg odom.

Definition visualize (states : list vec) (covariance : list mat)
    : Py unit :=
  let marker :=
    {| frame_id := "map"; ns := "predicted_trajectory";
       type := 4; action := 0;
       points := map (fun s : vec => (s 0%nat, s 1%nat, 0)) states;
       scale_x := 1 / 10;
       color_a := 1; color_r := 5 / 10; color_g := 1; color_b := 0 |} in
  publish marker.

(** [predicted_states - odometry_states] on arrays of shapes [(M, 2)] and
    [(K, 2)], with numpy's broadcasting of a single row. *)
Definition sub2 (p o : R * R) : R * R := (fst p - fst o, snd p - snd o).
Definition broadcast_sub (p o : list (R * R)) : exn + list (R * R) :=
  if Nat.eqb (length p) (length o) then
    inr (map (fun po => sub2 (fst po) (snd po)) (combine p o))
  else if Nat.eqb (length p) 1 then
    inr (map (fun r => sub2 (hd (0, 0) p) r) o)
  else if Nat.eqb (length o) 1 then
    inr (map (fun r => sub2 r (hd (0, 0) o)) p)
  else inl ValueError.

(** [np.linalg.norm(d, axis = 1)] and [np.sum]. *)
Definition norm_axis1 (d : list (R * R)) : list R :=
  map (fun r => sqrt (fst r ^ 2 + snd r ^ 2)) d.
Definition np_sum (l : list R) : R := fold_right Rplus 0 l.

(** The body of the [try] block.  [states[:, 0:2]] raises on the
    one-dimensional empty array that [np.asarray([])] is. *)
Definition validator_try (ODOM : list (R * R)) (VALIDATOR_COUNTER : Z)
    (num_predictions : Z) (states : list vec) : exn + R :=
  let odometry_states :=
    slice ODOM VALIDATOR_COUNTER (VALIDATOR_COUNTER + num_predictions) in
  match states with
  | [] => inl IndexError
  | _ :: _ =>
      let predicted_states :=
        map (fun s : vec => (s 0%nat, s 1%nat)) states in
      match broadcast_sub predicted_states odometry_states with
      | inl e => inl e
      | inr d =>
          let err := norm_axis1 d in
          inr (np_sum err / IZR num_predictions)
      end
  end.

(** [RMSE] is a local variable: it is bound only if the [try] block ran to
    its end, and [print(RMSE)] raises when it is not. *)
Definition predictionValidator (states : list vec) : Py unit :=
  self <- get_self ;;
  q <- lift (truediv (T self) (dt self)) ;;
  num_predictions <- lift (int q) ;;
  RMSE <- try_except
            (ODOM <- get_ODOM ;;
             VALIDATOR_COUNTER <- get_VALIDATOR_COUNTER ;;
             RMSE <- lift (validator_try ODOM VALIDATOR_COUNTER
                             num_predictions states) ;;
             ret (Some RMSE))
            (print (OutStr "Index Error") ;; ret None) ;;
  VALIDATOR_COUNTER <- get_VALIDATOR_COUNTER ;;
  set_VALIDATOR_COUNTER (VALIDATOR_COUNTER + 1) ;;
  match RMSE with
  | Some RMSE => print (OutNum RMSE)
  | None => raise UnboundLocalError
  end.

Section Run.

(** [tf.transformations.euler_from_quaternion], up to the reals it
    returns.  In the turn-rate branch [vel] is a Python float:
    [xVel ** 2] and [yVel ** 2] can raise [OverflowError], their binary64
    sum can be infinite without an exception, and [math.sqrt] of a sum of
    squares does not raise. *)
Variable euler_from_quaternion :
  float * float * float * float -> R * R * R.

Definition run (fuel : nat) : Py unit :=
  self <- get_self ;;
  let odom := last_odom_msg self in
  let xPos := position_x odom in
  let yPos := position_y odom in
  let xVel := linear_x odom in
  let yVel := linear_y odom in
  let '(roll, pitch, yaw) :=
    euler_from_quaternion
      (orientation_x odom, orientation_y odom,
       orientation_z odom, orientation_w odom) in
  let yawRate := angular_z odom in
  '(states, covariance) <-
    (if PrimFloat.ltb (PrimFloat.abs yawRate) lit_0_01 then
       let xAcc := 0 in
       let yAcc := 0 in
       constantAcceleration (F2R xPos) (F2R yPos) (F2R xVel) (F2R yVel)
         xAcc yAcc fuel
     else
       xVel2 <- lift (float_pow2 xVel) ;;
       yVel2 <- lift (float_pow2 yVel) ;;
       let vel := PrimFloat.sqrt (PrimFloat.add xVel2 yVel2) in
       constantTurnRate (F2R xPos) (F2R yPos) yaw (F2R vel) (F2R yawRate)
         fuel) ;;
  predictionValidator states ;;
  visualize states covariance.

End Run.

(** ** Specification-side definitions *)

(** The clock of both loops on its own: how often the body runs when the
    loop starts at [t], or [None] when [fuel] tests do not end it. *)
Fixpoint timeSteps (fuel : nat) (t T : float) : option nat :=
  match fuel with
  | O => None
  | S fuel' =>
      if PrimFloat.leb t T then
        option_map S (timeSteps fuel' (PrimFloat.add t lit_0_1) T)
      else Some O
  end.

(** The first [n] iterates of [step] after [s]. *)
Fixpoint traj {S : Type} (step : S -> S) (s : S) (n : nat) : list S :=
  match n with
  | O => []
  | S m => step s :: traj step (step s) m
  end.

(** [k] applications of [step]. *)
Fixpoint iter {S : Type} (step : S -> S) (k : nat) (s : S) : S :=
  match k with
  | O => s
  | S k' => iter step k' (step s)
  end.

(** One pass through the body of each loop, on (state, covariance). *)
Definition ca_step (A Q : mat) (s : vec * mat) : vec * mat :=
  (matvec 6 A (fst s),
   madd (matmul 6 A (matmul 6 (snd s) (transpose A))) Q).
Definition ctrv_step (dt : R) (Q : mat) (s : vec * mat) : vec * mat :=
  let A := ctrv_A dt (fst s) in
  (matvec 5 A (fst s),
   madd (matmul 5 A (matmul 5 (snd s) (transpose A))) Q).

(** The inner product, the difference of two matrices, and the congruence
    [A P A^T] that both loops apply to the covariance. *)
Definition dot (n : nat) (u v : vec) : R := sum n (fun i => u i * v i).
Definition msub (A B : mat) : mat := fun i j => A i j - B i j.
Definition sandwich (n : nat) (A P : mat) : mat :=
  matmul n A (matmul n P (transpose A)).
Definition unit_vec (i : nat) : vec := fun k => if Nat.eqb k i then 1 else 0.


(** The two models under one name: a call of either method, the dimension
    of its state, its initial state, the transition matrix it applies to a
    state and its process noise. *)
Inductive model : Type :=
| CA (xPos yPos xVel yVel xAcc yAcc : R)
| CTRV (xPos yPos yaw vel yawRate : R).

Definition predict (m : model) (fuel : nat) : Py (list vec * list mat) :=
  match m with
  | CA xPos yPos xVel yVel xAcc yAcc =>
      constantAcceleration xPos yPos xVel yVel xAcc yAcc fuel
  | CTRV xPos yPos yaw vel yawRate =>
      constantTurnRate xPos yPos yaw vel yawRate fuel
  end.

Definition dim (m : model) : nat :=
  match m with
  | CA _ _ _ _ _ _ => 6
  | CTRV _ _ _ _ _ => 5
  end.

Definition initial (m : model) : vec :=
  match m with
  | CA xPos yPos xVel yVel xAcc yAcc =>
      array1 [xPos; yPos; xVel; yVel; xAcc; yAcc]
  | CTRV xPos yPos yaw vel yawRate =>
      array1 [xPos; yPos; yaw; vel; yawRate]
  end.

Definition transition (dt : R) (m : model) (x_old : vec) : mat :=
  match m with
  | CA _ _ _ _ _ _ => ca_A dt
  | CTRV _ _ _ _ _ => ctrv_A dt x_old
  end.

Definition noise (dt : R) (m : model) : mat :=
  match m with
  | CA _ _ _ _ _ _ => ca_Q dt
  | CTRV _ _ _ _ _ => ctrv_Q dt
  end.

Definition model_step (dt : R) (m : model) (s : vec * mat) : vec * mat :=
  (matvec (dim m) (transition dt m (fst s)) (fst s),
   madd (sandwich (dim m) (transition dt m (fst s)) (snd s)) (noise dt m)).

(** The state and the covariance a loop holds in [x_old] and [P_old] when it
    produces the entry at position [k] of its output. *)
Definition previous {A : Type} (first : A) (l : list A) (k : nat) : A :=
  match k with
  | O => first
  | S k' => nth k' l first
  end.



(** [int(self.T / self.dt)], the first statement of
    [predictionValidator]. *)
Definition num_predictions (self : EgoTrajPrediction) : exn + Z :=
  match truediv (T self) (dt self) with
  | inl e => inl e
  | inr q => int q
  end.

(** The world after a validation call that got past [num_predictions]:
    the cursor moved by one and one more line on the output. *)
Definition advance (w : World) (p : printed) : World :=
  {| self := self w; ODOM := ODOM w;
     VALIDATOR_COUNTER := VALIDATOR_COUNTER w + 1;
     stdout := stdout w ++ [p]; published := published w |}.

(** The world after [j] successive validation calls on the same states,
    whatever their outcomes. *)
Fixpoint validate_again (states : list vec) (j : nat) (w : World) : World :=
  match j with
  | O => w
  | S j' => validate_again states j' (snd (predictionValidator states w))
  end.

(** The Euclidean distance of two positions and the mean distance of the
    first [N] positions of two sequences. *)
Definition euclid (p o : R * R) : R :=
  sqrt ((fst p - fst o) ^ 2 + (snd p - snd o) ^ 2).
Definition mean_distance (predicted reference : list (R * R)) (N : Z) : R :=
  sum (Z.to_nat N)
    (fun i => euclid (nth i predicted (0, 0)) (nth i reference (0, 0)))
  / IZR N.

(** The positions [states[:, 0:2]]. *)
Definition positions (states : list vec) : list (R * R) :=
  map (fun s : vec => (s 0%nat, s 1%nat)) states.

(** A predictor with [dt = 0.1] and [T = 3] whose reference log has five
    rows, all of them used up. *)
Definition world_exhausted : World :=
  {| self := {| dt := lit_0_1; T := 3%float;
                last_odom_msg := Odometry_new |};
     ODOM := [(0, 0); (1, 0); (2, 0); (3, 0); (4, 0)];
     VALIDATOR_COUNTER := 5; stdout := []; published := [] |}.

(** What [constantAcceleration(0, 0, 10, 0, 0, 0)] returns there: 30
    states. *)
Definition states_3s : list vec :=
  map fst
    (traj (ca_step (ca_A (F2R lit_0_1)) (ca_Q (F2R lit_0_1)))
       (array1 [0; 0; 10; 0; 0; 0], zeros) 30).

(** Two predictors for which [int(T / dt)] is not computed: one with
    [dt = 0], one with [T = 2^1000] and [dt = 2^-1000], whose quotient is
    infinite in binary64.  And one with a reference log of 30 rows, none of
    them used yet. *)
Definition world_zero_dt : World :=
  {| self := {| dt := 0%float; T := 3%float;
                last_odom_msg := Odometry_new |};
     ODOM := []; VALIDATOR_COUNTER := 0; stdout := []; published := [] |}.
Definition world_overflow : World :=
  {| self := {| dt := 0x1p-1000%float; T := 0x1p1000%float;
                last_odom_msg := Odometry_new |};
     ODOM := []; VALIDATOR_COUNTER := 0; stdout := []; published := [] |}.
Definition world_logged : World :=
  {| self := {| dt := lit_0_1; T := 3%float;
                last_odom_msg := Odometry_new |};
     ODOM := repeat (0, 0) 30;
     VALIDATOR_COUNTER := 0; stdout := []; published := [] |}.

(** A world around a predictor just constructed, with no reference log. *)
Definition world_of (obj : EgoTrajPrediction) : World :=
  {| self := obj; ODOM := []; VALIDATOR_COUNTER := 0;
     stdout := []; published := [] |}.

(** What [run] does once a model is chosen. *)
Definition run_with (m : model) (fuel : nat) : Py unit :=
  '(states, covariance) <- predict m fuel ;;
  predictionValidator states ;;
  visualize states covariance.

(** A predictor with [dt = 1] and [T = 3]. *)
Definition world_1s : World :=
  {| self := {| dt := 1%float; T := 3%float;
                last_odom_msg := Odometry_new |};
     ODOM := []; VALIDATOR_COUNTER := 0; stdout := []; published := [] |}.

(** A model started from a position moved by [(a, b)], and a state moved
    by [(a, b)]. *)
Definition shifted (a b : R) (m : model) : model :=
  match m with
  | CA xPos yPos xVel yVel xAcc yAcc =>
      CA (xPos + a) (yPos + b) xVel yVel xAcc yAcc
  | CTRV xPos yPos yaw vel yawRate =>
      CTRV (xPos + a) (yPos + b) yaw vel yawRate
  end.
Definition shift_vec (a b : R) (s : vec) : vec :=
  fun i =>
    match i with
    | 0%nat => s 0%nat + a
    | 1%nat => s 1%nat + b
    | _ => s i
    end.

(** The literals [0.3] and [0.05], and two more predictors: one with
    [dt = 0.1], [T = 0.3] and a reference log of ten rows, one with
    [dt = 0.01], [T = 0.05] and no reference log. *)
Definition lit_0_3 : float := 0x1.3333333333333p-2%float.
Definition lit_0_05 : float := 0x1.999999999999ap-5%float.
Definition world_short : World :=
  {| self := {| dt := lit_0_1; T := lit_0_3;
                last_odom_msg := Odometry_new |};
     ODOM := repeat (0, 0) 10;
     VALIDATOR_COUNTER := 0; stdout := []; published := [] |}.
Definition world_fine : World :=
  {| self := {| dt := lit_0_01; T := lit_0_05;
                last_odom_msg := Odometry_new |};
     ODOM := []; VALIDATOR_COUNTER := 0; stdout := []; published := [] |}.

(** The speed [math.sqrt(xVel**2 + yVel**2)] as binary64 computes it when
    no square overflows. *)
Definition speed_b64 (odom : Odometry) : float :=
  PrimFloat.sqrt
    (PrimFloat.add
       (PrimFloat.mul (linear_x odom) (linear_x odom))
       (PrimFloat.mul (linear_y odom) (linear_y odom))).

(** The model [run] chooses for a sample, and the marker [visualize]
    publishes for a prediction. *)
Definition chosen_model
    (euler_from_quaternion : float * float * float * float -> R * R * R)
    (odom : Odometry) : model :=
  if PrimFloat.ltb (PrimFloat.abs (angular_z odom)) lit_0_01 then
    CA (F2R (position_x odom)) (F2R (position_y odom))
       (F2R (linear_x odom)) (F2R (linear_y odom)) 0 0
  else
    CTRV (F2R (position_x odom)) (F2R (position_y odom))
         (snd (euler_from_quaternion
                 (orientation_x odom, orientation_y odom,
                  orientation_z odom, orientation_w odom)))
         (F2R (speed_b64 odom))
         (F2R (angular_z odom)).


(** A predictor with [dt = 0.1] and [T = -1]. *)
Definition world_negative : World :=
  {| self := {| dt := lit_0_1; T := (-1)%float;
                last_odom_msg := Odometry_new |};
     ODOM := []; VALIDATOR_COUNTER := 0; stdout := []; published := [] |}.

(** A sample that turns at the binary64 value of [0.01], and the logged
    world once that sample has arrived. *)
Definition odom_turning : Odometry :=
  {| position_x := 0; position_y := 0;
     orientation_x := 0; orientation_y := 0;
     orientation_z := 0; orientation_w := 1;
     linear_x := 1; linear_y := 0; angular_z := lit_0_01 |}%float.
Definition world_turning : World :=
  snd (ROSCallback odom_turning world_logged).

(** What a model squares before its loop, what [run] squares before it
    calls the turn-rate model, and the model [run] is about to call when
    nothing overflows there. *)
Definition squares (m : model) (dt : float) : exn + unit :=
  match m with
  | CA _ _ _ _ _ _ =>
      match float_pow2 dt with
      | inl e => inl e
      | inr _ => inr tt
      end
  | CTRV _ _ _ _ _ => ctrv_noise dt
  end.
Definition speed_squares (odom : Odometry) : exn + unit :=
  match float_pow2 (linear_x odom), float_pow2 (linear_y odom) with
  | inr _, inr _ => inr tt
  | _, _ => inl OverflowError
  end.

(** The headings of the turn-rate model stay within the binary64 range
    over [n] runs of the loop body; the constant-acceleration model calls
    neither [cos] nor [sin]. *)
Definition headings_finite (dt : R) (m : model) (n : nat) : Prop :=
  match m with
  | CA _ _ _ _ _ _ => True
  | CTRV _ _ yaw _ yawRate =>
      forall k, (k < n)%nat ->
        Rabs (yaw + INR k * (dt * yawRate)) < binary64_range /\
        Rabs (yaw + INR (S k) * (dt * yawRate)) < binary64_range
  end.

(** The model turns: the turn rate the turn-rate model divides by is not
    zero. *)
Definition turning (m : model) : Prop :=
  match m with
  | CA _ _ _ _ _ _ => True
  | CTRV _ _ _ _ yawRate => yawRate <> 0
  end.


(** The squares [run] takes before it calls a model: none on the
    constant-acceleration branch, those of the two velocity components on
    the turn-rate branch. *)
Definition run_squares (odom : Odometry) : exn + unit :=
  if PrimFloat.ltb (PrimFloat.abs (angular_z odom)) lit_0_01 then inr tt
  else speed_squares odom.



(** A sample that turns at [0.02] and moves at [2^512] along [x], and the
    logged world once that sample has arrived. *)
Definition odom_fast : Odometry :=
  {| position_x := 0; position_y := 0;
     orientation_x := 0; orientation_y := 0;
     orientation_z := 0; orientation_w := 1;
     linear_x := 0x1p+512; linear_y := 0;
     angular_z := 0x1.47ae147ae147bp-6 |}%float.
Definition world_fast : World :=
  snd (ROSCallback odom_fast world_logged).

(** A predictor with [dt = 2^512] and [T = -1]. *)
Definition world_coarse : World :=
  {| self := {| dt := 0x1p+512%float; T := (-1)%float;
                last_odom_msg := Odometry_new |};
     ODOM := []; VALIDATOR_COUNTER := 0; stdout := []; published := [] |}.


(** A predictor configured with [dt = 0.1] and [T = 3], before any sample
    has arrived, with an empty reference log. *)
Definition world_3s : World :=
  {| self := {| dt := lit_0_1; T := 3%float;
                last_odom_msg := Odometry_new |};
     ODOM := []; VALIDATOR_COUNTER := 0; stdout := []; published := [] |}.

(** * Properties *)

(** ** The loops, unrolled *)

Lemma ca_while_traj (fuel : nat) :
  forall A Q T t x P ss cs,
    ca_while fuel A Q T t x P ss cs =
    option_map
      (fun n => let tr := traj (ca_step A Q) (x, P) n in
                (ss ++ map fst tr, cs ++ map snd tr))
      (timeSteps fuel t T).
Proof.
  induction fuel as [|fuel IH]; intros A Q T t x P ss cs; simpl;
    [reflexivity|].
  destruct (PrimFloat.leb t T); simpl.
  - rewrite IH. destruct (timeSteps fuel _ T); simpl; [|reflexivity].
    now rewrite <- !app_assoc.
  - now rewrite !app_nil_r.
Qed.

Lemma ctrv_while_returns (fuel : nat) :
  forall dt Q T t x P ss cs r,
    ctrv_while fuel dt Q T t x P ss cs = Some (inr r) ->
    exists n,
      timeSteps fuel t T = Some n /\
      r = (ss ++ map fst (traj (ctrv_step dt Q) (x, P) n),
           cs ++ map snd (traj (ctrv_step dt Q) (x, P) n)).
Proof.
  induction fuel as [|fuel IH]; intros dt Q T t x P ss cs r H; simpl in H;
    [discriminate|]. simpl.
  destruct (PrimFloat.leb t T).
  - destruct (ctrv_angles dt x); [discriminate|].
    apply IH in H. destruct H as (n & Hn & ->). exists (S n).
    rewrite Hn. split; [reflexivity|]. simpl.
    now rewrite <- !app_assoc.
  - exists O. split; [reflexivity|]. injection H as <-.
    simpl. now rewrite !app_nil_r.
Qed.

Lemma ctrv_while_runs (fuel : nat) :
  forall dt Q T t x P ss cs n,
    timeSteps fuel t T = Some n ->
    (forall k, (k < n)%nat ->
       ctrv_angles dt (fst (iter (ctrv_step dt Q) k (x, P))) = inr tt) ->
    ctrv_while fuel dt Q T t x P ss cs
    = Some (inr (ss ++ map fst (traj (ctrv_step dt Q) (x, P) n),
                 cs ++ map snd (traj (ctrv_step dt Q) (x, P) n))).
Proof.
  induction fuel as [|fuel IH]; intros dt Q T t x P ss cs n Hn Hok;
    simpl in Hn; [discriminate|]. simpl.
  destruct (PrimFloat.leb t T).
  - destruct (timeSteps fuel _ T) as [m|] eqn:E; [|discriminate].
    injection Hn as <-.
    pose proof (Hok O ltac:(lia)) as H0. cbn [iter fst] in H0. rewrite H0.
    rewrite (IH _ _ _ _ _ _ _ _ m E).
    + simpl. now rewrite <- !app_assoc.
    + intros k Hk. apply (Hok (S k)). lia.
  - injection Hn as <-. simpl. now rewrite !app_nil_r.
Qed.

Lemma traj_length {S : Type} (step : S -> S) (n : nat) :
  forall s, length (traj step s n) = n.
Proof. induction n; intros; simpl; [reflexivity|now rewrite IHn]. Qed.

Lemma traj_nth {S : Type} (step : S -> S) (n : nat) :
  forall s k, (k < n)%nat ->
    nth_error (traj step s n) k = Some (iter step (Datatypes.S k) s).
Proof.
  induction n as [|n IH]; intros s k Hk; [lia|].
  destruct k as [|k]; simpl; [reflexivity|].
  apply IH. lia.
Qed.

Lemma traj_nth_inv {S : Type} (step : S -> S) (n : nat) (s x : S) (k : nat) :
  nth_error (traj step s n) k = Some x ->
  (k < n)%nat /\ x = iter step (Datatypes.S k) s.
Proof.
  intros H.
  assert (Hk : (k < n)%nat).
  { rewrite <- (traj_length step n s). apply nth_error_Some. congruence. }
  split; [exact Hk|]. rewrite traj_nth in H by exact Hk. congruence.
Qed.

Lemma iter_S {S : Type} (step : S -> S) (k : nat) :
  forall s, iter step (Datatypes.S k) s = step (iter step k s).
Proof. induction k; intros; simpl in *; [reflexivity|apply IHk]. Qed.


(** What the two methods return, in terms of the clock. *)
Lemma float_pow2_error (x : float) (e : exn) :
  float_pow2 x = inl e -> e = OverflowError.
Proof.
  unfold float_pow2. destruct (_ && _); [|discriminate]. congruence.
Qed.

Lemma float_pow2_value (x y : float) :
  float_pow2 x = inr y -> y = PrimFloat.mul x x.
Proof.
  unfold float_pow2. destruct (_ && _); [discriminate|]. congruence.
Qed.

Lemma ctrv_noise_error (dt : float) (e : exn) :
  ctrv_noise dt = inl e -> e = OverflowError.
Proof.
  unfold ctrv_noise.
  destruct (float_pow2 dt) as [e0|dt2] eqn:E.
  - intros H. injection H as <-. now apply float_pow2_error in E.
  - cbv zeta.
    repeat (destruct (float_pow2 _) as [?|?]); congruence.
Qed.

Lemma squares_error (m : model) (dt : float) (e : exn) :
  squares m dt = inl e -> e = OverflowError.
Proof.
  destruct m; simpl.
  - destruct (float_pow2 dt) eqn:E; [|discriminate].
    intros H. injection H as <-. now apply float_pow2_error in E.
  - apply ctrv_noise_error.
Qed.

Lemma constantAcceleration_unfold xPos yPos xVel yVel xAcc yAcc fuel w :
  constantAcceleration xPos yPos xVel yVel xAcc yAcc fuel w =
  match float_pow2 (dt (self w)) with
  | inl e => (Raise e, w)
  | inr _ =>
      match timeSteps fuel 0%float (T (self w)) with
      | Some n =>
          let tr :=
            traj (ca_step (ca_A (F2R (dt (self w))))
                    (ca_Q (F2R (dt (self w)))))
              (array1 [xPos; yPos; xVel; yVel; xAcc; yAcc], zeros) n in
          (Return (map fst tr, map snd tr), w)
      | None => (Diverge, w)
      end
  end.
Proof.
  unfold constantAcceleration, bind, get_self.
  destruct (float_pow2 _); [reflexivity|]. cbn [lift ret].
  rewrite ca_while_traj.
  destruct (timeSteps fuel _ _); reflexivity.
Qed.

Lemma constantTurnRate_returns xPos yPos yaw vel yawRate fuel w r w' :
  constantTurnRate xPos yPos yaw vel yawRate fuel w = (Return r, w') ->
  exists n,
    timeSteps fuel 0%float (T (self w)) = Some n /\
    r = (map fst
           (traj (ctrv_step (F2R (dt (self w))) (ctrv_Q (F2R (dt (self w)))))
              (array1 [xPos; yPos; yaw; vel; yawRate], zeros) n),
         map snd
           (traj (ctrv_step (F2R (dt (self w))) (ctrv_Q (F2R (dt (self w)))))
              (array1 [xPos; yPos; yaw; vel; yawRate], zeros) n)) /\
    w' = w.
Proof.
  unfold constantTurnRate, bind, get_self.
  destruct (ctrv_noise _); [discriminate|]. cbn [lift ret].
  destruct (ctrv_while _ _ _ _ _ _ _ _ _) as [[e|r0]|] eqn:E;
    cbn [lift ret raise diverge]; try discriminate.
  intros H. injection H as <- <-.
  apply ctrv_while_returns in E. destruct E as (n & Hn & ->).
  exists n. repeat split. exact Hn.
Qed.

Lemma ctrv_state_iter (dt : R) (Q P0 : mat) (x y yaw vel yawRate : R)
    (k : nat) :
  let s := fst (iter (ctrv_step dt Q) k
                  (array1 [x; y; yaw; vel; yawRate], P0)) in
  s 2%nat = yaw + INR k * (dt * yawRate) /\
  s 3%nat = vel /\ s 4%nat = yawRate.
Proof.
  induction k as [|k IH]; cbv zeta.
  - unfold array1. simpl. repeat split; ring.
  - rewrite iter_S. cbv zeta in IH. destruct IH as (H2 & H3 & H4).
    set (s := iter (ctrv_step dt Q) k _) in *.
    change (fst (ctrv_step dt Q s))
      with (matvec 5 (ctrv_A dt (fst s)) (fst s)).
    rewrite S_INR.
    cbv [matvec ctrv_A array2 sum nth].
    rewrite H2, H3, H4. repeat split; ring.
Qed.

Lemma ctrv_angles_ok (dt : R) (x : vec) :
  Rabs (x 2%nat) < binary64_range ->
  Rabs (dt * x 4%nat + x 2%nat) < binary64_range ->
  ctrv_angles dt x = inr tt.
Proof.
  intros H1 H2. unfold ctrv_angles, math_cos.
  destruct (Rlt_dec _ _); [|contradiction].
  destruct (Rlt_dec _ _); [reflexivity|contradiction].
Qed.

Lemma headings_angles (dt : R) (Q : mat) (x y yaw vel yawRate : R)
    (n : nat) :
  headings_finite dt (CTRV x y yaw vel yawRate) n ->
  forall k, (k < n)%nat ->
    ctrv_angles dt
      (fst (iter (ctrv_step dt Q) k (array1 [x; y; yaw; vel; yawRate], zeros)))
    = inr tt.
Proof.
  intros H k Hk.
  destruct (ctrv_state_iter dt Q zeros x y yaw vel yawRate k)
    as (H2 & _ & H4).
  apply ctrv_angles_ok; rewrite H2, ?H4.
  - now apply H.
  - replace (dt * yawRate + (yaw + INR k * (dt * yawRate)))
      with (yaw + INR (S k) * (dt * yawRate)) by (rewrite S_INR; ring).
    now apply H.
Qed.

Lemma constantTurnRate_runs xPos yPos yaw vel yawRate fuel w n :
  ctrv_noise (dt (self w)) = inr tt ->
  timeSteps fuel 0%float (T (self w)) = Some n ->
  headings_finite (F2R (dt (self w))) (CTRV xPos yPos yaw vel yawRate) n ->
  constantTurnRate xPos yPos yaw vel yawRate fuel w
  = (Return
       (map fst
          (traj (ctrv_step (F2R (dt (self w))) (ctrv_Q (F2R (dt (self w)))))
             (array1 [xPos; yPos; yaw; vel; yawRate], zeros) n),
        map snd
          (traj (ctrv_step (F2R (dt (self w))) (ctrv_Q (F2R (dt (self w)))))
             (array1 [xPos; yPos; yaw; vel; yawRate], zeros) n)), w).
Proof.
  intros Hsq Hn Hh. unfold constantTurnRate, bind, get_self.
  rewrite Hsq. cbn [lift ret].
  rewrite (ctrv_while_runs fuel _ _ _ _ _ _ _ _ n Hn).
  - reflexivity.
  - now apply headings_angles.
Qed.

(** The binary64 range is large, and a heading that stays small is within
    it. *)
Lemma binary64_range_large : 1024 <= binary64_range.
Proof.
  unfold binary64_range.
  replace 1024 with (2 ^ 10) by (simpl; lra).
  apply Rle_pow; [lra | lia].
Qed.

Lemma headings_bounded (dt : R) (x y yaw vel yawRate : R) (n : nat) :
  Rabs yaw + INR n * Rabs (dt * yawRate) < binary64_range ->
  headings_finite dt (CTRV x y yaw vel yawRate) n.
Proof.
  intros H.
  assert (Hb : forall j, (j <= n)%nat ->
                 Rabs (yaw + INR j * (dt * yawRate)) < binary64_range).
  { intros j Hj.
    eapply Rle_lt_trans; [|exact H].
    eapply Rle_trans; [apply Rabs_triang|].
    apply Rplus_le_compat_l. rewrite Rabs_mult.
    apply Rmult_le_compat_r; [apply Rabs_pos|].
    rewrite Rabs_pos_eq by apply pos_INR. now apply le_INR. }
  intros k Hk. split; apply Hb; lia.
Qed.

(** Both models at once. *)
Lemma predict_raises (m : model) (fuel : nat) (w : World) (e : exn) :
  squares m (dt (self w)) = inl e ->
  predict m fuel w = (Raise OverflowError, w).
Proof.
  intros H. pose proof (squares_error _ _ _ H) as ->.
  destruct m; simpl in H; simpl predict.
  - rewrite constantAcceleration_unfold.
    destruct (float_pow2 _) as [e|] eqn:E; [|discriminate].
    now rewrite (float_pow2_error _ _ E).
  - unfold constantTurnRate, bind, get_self. now rewrite H.
Qed.

Lemma predict_returns (m : model) (fuel : nat) (w w' : World)
    (r : list vec * list mat) :
  predict m fuel w = (Return r, w') ->
  exists n,
    squares m (dt (self w)) = inr tt /\
    timeSteps fuel 0%float (T (self w)) = Some n /\
    r = (map fst (traj (model_step (F2R (dt (self w))) m)
                    (initial m, zeros) n),
         map snd (traj (model_step (F2R (dt (self w))) m)
                    (initial m, zeros) n)) /\
    w' = w.
Proof.
  destruct m; simpl predict; intros H.
  - rewrite constantAcceleration_unfold in H. simpl squares.
    destruct (float_pow2 _); [discriminate|].
    destruct (timeSteps fuel _ _) as [n|]; [|discriminate].
    cbv zeta in H. injection H as <- <-. exists n. repeat split.
  - simpl squares.
    destruct (ctrv_noise (dt (self w))) as [e|[]] eqn:E.
    + unfold constantTurnRate, bind, get_self in H. rewrite E in H.
      discriminate.
    + apply constantTurnRate_returns in H. destruct H as (n & Hn & -> & ->).
      exists n. repeat split. exact Hn.
Qed.

Lemma predict_runs (m : model) (fuel : nat) (w : World) (n : nat) :
  squares m (dt (self w)) = inr tt ->
  timeSteps fuel 0%float (T (self w)) = Some n ->
  headings_finite (F2R (dt (self w))) m n ->
  predict m fuel w
  = (Return
       (map fst (traj (model_step (F2R (dt (self w))) m)
                   (initial m, zeros) n),
        map snd (traj (model_step (F2R (dt (self w))) m)
                   (initial m, zeros) n)), w).
Proof.
  intros Hsq Hn Hh. destruct m; simpl predict; simpl in Hsq.
  - rewrite constantAcceleration_unfold.
    destruct (float_pow2 _); [discriminate|]. rewrite Hn. reflexivity.
  - now apply constantTurnRate_runs.
Qed.

(** The predictors with [dt = 0.1] and with [dt = 1] square without
    overflow, and [dt = 0.1] is at most 1. *)
Lemma squares_0_1 (m : model) : squares m lit_0_1 = inr tt.
Proof. destruct m; vm_compute; reflexivity. Qed.

Lemma squares_1 (m : model) : squares m 1%float = inr tt.
Proof. destruct m; vm_compute; reflexivity. Qed.


Lemma F2R_0_1_bounds : 0 <= F2R lit_0_1 <= 1.
Proof.
  unfold F2R.
  replace (Prim2SF lit_0_1)
    with (S754_finite false 7205759403792794 (-56))
    by (vm_compute; reflexivity).
  unfold powerRZ. rewrite (pow_IZR 2).
  replace (Z.pow 2 (Z.of_nat (Pos.to_nat 56))) with 72057594037927936%Z
    by (vm_compute; reflexivity).
  split; [|apply Rmult_le_reg_r with 72057594037927936; [lra|]];
    field_simplify; lra.
Qed.

(** ** Length of the prediction *)

Lemma timeSteps_3s : timeSteps 31 0%float 3%float = Some 30%nat.
Proof. vm_compute. reflexivity. Qed.

(** The calls the examples below evaluate: on the predictor with
    [dt = 0.1] and [T = 3] either model returns 30 pairs. *)
Lemma constantAcceleration_3s (xPos yPos xVel yVel xAcc yAcc : R) :
  let tr :=
    traj (ca_step (ca_A (F2R lit_0_1)) (ca_Q (F2R lit_0_1)))
      (array1 [xPos; yPos; xVel; yVel; xAcc; yAcc], zeros) 30 in
  constantAcceleration xPos yPos xVel yVel xAcc yAcc 31 world_3s
  = (Return (map fst tr, map snd tr), world_3s).
Proof.
  rewrite constantAcceleration_unfold.
  change (T (self world_3s)) with 3%float. rewrite timeSteps_3s.
  reflexivity.
Qed.

Lemma headings_small (dt x y yaw vel yawRate : R) :
  0 <= dt <= 1 -> Rabs yaw <= 10 -> Rabs yawRate <= 10 ->
  headings_finite dt (CTRV x y yaw vel yawRate) 30.
Proof.
  intros Hdt Hyaw Hrate. apply headings_bounded.
  pose proof binary64_range_large.
  rewrite Rabs_mult, (Rabs_pos_eq dt) by lra.
  replace (INR 30) with 30 by (simpl; lra).
  pose proof (Rabs_pos yawRate).
  assert (dt * Rabs yawRate <= 10) by nra. lra.
Qed.

Lemma constantTurnRate_3s (xPos yPos yaw vel yawRate : R) :
  Rabs yaw <= 10 -> Rabs yawRate <= 10 ->
  let tr :=
    traj (ctrv_step (F2R lit_0_1) (ctrv_Q (F2R lit_0_1)))
      (array1 [xPos; yPos; yaw; vel; yawRate], zeros) 30 in
  constantTurnRate xPos yPos yaw vel yawRate 31 world_3s
  = (Return (map fst tr, map snd tr), world_3s).
Proof.
  intros Hyaw Hrate tr.
  apply (constantTurnRate_runs xPos yPos yaw vel yawRate 31 world_3s 30).
  - exact (squares_0_1 (CTRV 0 0 0 0 0)).
  - exact timeSteps_3s.
  - apply headings_small; [exact F2R_0_1_bounds | exact Hyaw | exact Hrate].
Qed.

Lemma predict_3s (m : model) :
  headings_finite (F2R lit_0_1) m 30 ->
  let tr := traj (model_step (F2R lit_0_1) m) (initial m, zeros) 30 in
  predict m 31 world_3s = (Return (map fst tr, map snd tr), world_3s).
Proof.
  intros Hh tr.
  apply (predict_runs m 31 world_3s 30);
    [apply squares_0_1 | exact timeSteps_3s | exact Hh].
Qed.




(** ** Finite sums *)

Lemma sum_ext (n : nat) (f g : nat -> R) :
  (forall i, (i < n)%nat -> f i = g i) -> sum n f = sum n g.
Proof.
  induction n as [|n IH]; intros H; simpl; [reflexivity|].
  rewrite IH by (intros; apply H; lia). rewrite H by lia. reflexivity.
Qed.

Lemma sum_zero (n : nat) : sum n (fun _ => 0) = 0.
Proof. induction n; simpl; [reflexivity|]. rewrite IHn. ring. Qed.

Lemma sum_plus (n : nat) (f g : nat -> R) :
  sum n (fun i => f i + g i) = sum n f + sum n g.
Proof. induction n; simpl; [ring|]. rewrite IHn. ring. Qed.

Lemma sum_minus (n : nat) (f g : nat -> R) :
  sum n (fun i => f i - g i) = sum n f - sum n g.
Proof. induction n; simpl; [ring|]. rewrite IHn. ring. Qed.

Lemma sum_scal_l (n : nat) (c : R) (f : nat -> R) :
  sum n (fun i => c * f i) = c * sum n f.
Proof. induction n; simpl; [ring|]. rewrite IHn. ring. Qed.

Lemma sum_scal_r (n : nat) (c : R) (f : nat -> R) :
  sum n (fun i => f i * c) = sum n f * c.
Proof. induction n; simpl; [ring|]. rewrite IHn. ring. Qed.

Lemma sum_swap (n m : nat) (f : nat -> nat -> R) :
  sum n (fun i => sum m (fun j => f i j)) =
  sum m (fun j => sum n (fun i => f i j)).
Proof.
  induction n as [|n IH]; simpl.
  - now rewrite sum_zero.
  - now rewrite IH, <- sum_plus.
Qed.

Lemma sum_nonneg (n : nat) (f : nat -> R) :
  (forall i, (i < n)%nat -> 0 <= f i) -> 0 <= sum n f.
Proof.
  induction n as [|n IH]; intros H; simpl; [lra|].
  assert (0 <= sum n f) by (apply IH; intros; apply H; lia).
  assert (0 <= f n) by (apply H; lia). lra.
Qed.

Lemma sum_delta_out (n i : nat) (f : nat -> R) :
  (n <= i)%nat -> sum n (fun k => if Nat.eqb k i then f k else 0) = 0.
Proof.
  induction n as [|n IH]; intros H; simpl; [reflexivity|].
  rewrite IH by lia. destruct (Nat.eqb_spec n i); [lia|ring].
Qed.

Lemma sum_delta (n i : nat) (f : nat -> R) :
  (i < n)%nat -> sum n (fun k => if Nat.eqb k i then f k else 0) = f i.
Proof.
  induction n as [|n IH]; intros H; simpl; [lia|].
  destruct (Nat.eqb_spec n i) as [->|Hne].
  - rewrite sum_delta_out by lia. ring.
  - rewrite IH by lia. ring.
Qed.

(** ** Matrices: products, congruence, quadratic forms *)

Lemma dot_ext_r (n : nat) (u w w' : vec) :
  veq n w w' -> dot n u w = dot n u w'.
Proof. intros H. apply sum_ext. intros i Hi. now rewrite (H i Hi). Qed.

Lemma matvec_ext_r (n : nat) (A : mat) (w w' : vec) :
  veq n w w' -> forall i, matvec n A w i = matvec n A w' i.
Proof. intros H i. apply sum_ext. intros k Hk. now rewrite (H k Hk). Qed.


Lemma quad_dot (n : nat) (P : mat) (v : vec) :
  quad n P v = dot n v (matvec n P v).
Proof.
  apply sum_ext. intros i _. unfold matvec. rewrite <- sum_scal_l.
  apply sum_ext. intros j _. ring.
Qed.

Lemma dot_matvec (n : nat) (A : mat) (u w : vec) :
  dot n u (matvec n A w) = dot n (matvec n (transpose A) u) w.
Proof.
  unfold dot, matvec, transpose.
  transitivity (sum n (fun i => sum n (fun k => u i * (A i k * w k)))).
  { apply sum_ext. intros i _. now rewrite sum_scal_l. }
  rewrite sum_swap. apply sum_ext. intros k _.
  rewrite <- sum_scal_r. apply sum_ext. intros i _. ring.
Qed.

Lemma matvec_matmul (n : nat) (A B : mat) (w : vec) (i : nat) :
  matvec n (matmul n A B) w i = matvec n A (matvec n B w) i.
Proof.
  unfold matvec, matmul.
  transitivity (sum n (fun k => sum n (fun l => A i l * B l k * w k))).
  { apply sum_ext. intros k _. now rewrite sum_scal_r. }
  rewrite sum_swap. apply sum_ext. intros l _.
  rewrite <- sum_scal_l. apply sum_ext. intros k _. ring.
Qed.

Lemma quad_sandwich (n : nat) (A P : mat) (v : vec) :
  quad n (sandwich n A P) v = quad n P (matvec n (transpose A) v).
Proof.
  rewrite !quad_dot. unfold sandwich.
  rewrite (dot_ext_r n v _ (matvec n A (matvec n (matmul n P (transpose A)) v)))
    by (intros i _; apply matvec_matmul).
  rewrite dot_matvec. apply dot_ext_r. intros i _. apply matvec_matmul.
Qed.

Lemma quad_ext (n : nat) (P P' : mat) (v : vec) :
  meq n P P' -> quad n P v = quad n P' v.
Proof.
  intros H. apply sum_ext. intros i Hi. apply sum_ext. intros j Hj.
  now rewrite (H i j Hi Hj).
Qed.

Lemma quad_madd (n : nat) (P Q : mat) (v : vec) :
  quad n (madd P Q) v = quad n P v + quad n Q v.
Proof.
  unfold quad, madd. rewrite <- sum_plus. apply sum_ext. intros i _.
  rewrite <- sum_plus. apply sum_ext. intros j _. ring.
Qed.

Lemma quad_msub (n : nat) (P Q : mat) (v : vec) :
  quad n (msub P Q) v = quad n P v - quad n Q v.
Proof.
  unfold quad, msub. rewrite <- sum_minus. apply sum_ext. intros i _.
  rewrite <- sum_minus. apply sum_ext. intros j _. ring.
Qed.

Lemma psd_ext (n : nat) (P P' : mat) : meq n P P' -> psd n P -> psd n P'.
Proof. intros H HP v. rewrite <- (quad_ext n P P' v H). apply HP. Qed.

Lemma psd_zeros (n : nat) : psd n zeros.
Proof.
  intros v. apply sum_nonneg. intros i _. apply sum_nonneg. intros j _.
  unfold zeros. lra.
Qed.

Lemma psd_sandwich (n : nat) (A P : mat) : psd n P -> psd n (sandwich n A P).
Proof. intros H v. rewrite quad_sandwich. apply H. Qed.

Lemma psd_madd (n : nat) (P Q : mat) : psd n P -> psd n Q -> psd n (madd P Q).
Proof.
  intros HP HQ v. rewrite quad_madd. specialize (HP v). specialize (HQ v). lra.
Qed.

(** An outer product [g g^T c] with [c >= 0]. *)
Lemma psd_outer (n : nat) (g : vec) (c : R) :
  0 <= c -> psd n (fun i j => g i * g j * c).
Proof.
  intros Hc v. unfold quad.
  replace (sum n (fun i => sum n (fun j => v i * (g i * g j * c) * v j)))
    with (c * (dot n v g * dot n v g)).
  { apply Rmult_le_pos; [exact Hc|]. apply Rle_0_sqr. }
  unfold dot. rewrite <- sum_scal_r, <- sum_scal_l.
  apply sum_ext. intros i _. rewrite <- !sum_scal_l.
  apply sum_ext. intros j _. ring.
Qed.

Lemma psd_diag (n : nat) (d : list R) :
  (forall i, 0 <= nth i d 0) -> psd n (diag d).
Proof.
  intros Hd v. apply sum_nonneg. intros i Hi.
  rewrite (sum_ext n _ (fun j => if Nat.eqb j i then v i * nth i d 0 * v j else 0)).
  - rewrite sum_delta by exact Hi.
    replace (v i * nth i d 0 * v i) with (nth i d 0 * (v i * v i)) by ring.
    apply Rmult_le_pos; [apply Hd | apply Rle_0_sqr].
  - intros j _. unfold diag. rewrite (Nat.eqb_sym j i).
    destruct (Nat.eqb i j); ring.
Qed.

Lemma psd_diag_nonneg (n : nat) (P : mat) (i : nat) :
  psd n P -> (i < n)%nat -> 0 <= P i i.
Proof.
  intros H Hi. specialize (H (unit_vec i)). unfold quad, unit_vec in H.
  rewrite (sum_ext n _
             (fun k => if Nat.eqb k i
                       then sum n (fun j => if Nat.eqb j i then P k j else 0)
                       else 0)) in H.
  - rewrite sum_delta in H by exact Hi. rewrite sum_delta in H by exact Hi.
    exact H.
  - intros k _. destruct (Nat.eqb k i).
    + apply sum_ext. intros j _. destruct (Nat.eqb j i); cbv iota; ring.
    + rewrite (sum_ext n _ (fun _ => 0)); [apply sum_zero|].
      intros j _. ring.
Qed.

Lemma trace_psd (n : nat) (P : mat) : psd n P -> 0 <= trace n P.
Proof.
  intros H. apply sum_nonneg. intros i Hi. now apply (psd_diag_nonneg n).
Qed.


Lemma trace_msub (n : nat) (P Q : mat) :
  trace n (msub P Q) = trace n P - trace n Q.
Proof. unfold trace, msub. now rewrite sum_minus. Qed.

Lemma mat_ext (A B : mat) : (forall i j, A i j = B i j) -> A = B.
Proof.
  intros H. apply functional_extensionality. intros i.
  apply functional_extensionality. intros j. apply H.
Qed.

Lemma matmul_assoc (n : nat) (A B C : mat) :
  matmul n (matmul n A B) C = matmul n A (matmul n B C).
Proof.
  apply mat_ext. intros i j. unfold matmul.
  transitivity (sum n (fun k => sum n (fun l => A i l * B l k * C k j))).
  { apply sum_ext. intros k _. now rewrite sum_scal_r. }
  rewrite sum_swap. apply sum_ext. intros l _.
  rewrite <- sum_scal_l. apply sum_ext. intros k _. ring.
Qed.

Lemma transpose_matmul (n : nat) (A B : mat) :
  transpose (matmul n A B) = matmul n (transpose B) (transpose A).
Proof.
  apply mat_ext. intros i j. unfold transpose, matmul.
  apply sum_ext. intros k _. ring.
Qed.

Lemma transpose_involutive (A : mat) : transpose (transpose A) = A.
Proof. apply mat_ext. reflexivity. Qed.


Lemma transpose_sandwich (n : nat) (A P : mat) :
  transpose (sandwich n A P) = sandwich n A (transpose P).
Proof.
  unfold sandwich.
  rewrite !transpose_matmul, transpose_involutive. now rewrite matmul_assoc.
Qed.



Lemma sandwich_zeros (n : nat) (A : mat) : sandwich n A zeros = zeros.
Proof.
  apply mat_ext. intros i j. unfold sandwich, matmul, zeros, transpose.
  rewrite (sum_ext n _ (fun _ => 0)); [apply sum_zero|].
  intros k _. rewrite (sum_ext n _ (fun _ => 0)); [|intros l _; ring].
  rewrite sum_zero. ring.
Qed.

(** The entries of [A P A^T] in range depend on the entries of [P] and of
    [A] in range only. *)
Lemma sandwich_ext_r (n : nat) (A P P' : mat) :
  meq n P P' -> sandwich n A P = sandwich n A P'.
Proof.
  intros H. apply mat_ext. intros i j. unfold sandwich, matmul.
  apply sum_ext. intros k Hk. f_equal.
  apply sum_ext. intros l Hl. now rewrite (H k l Hk Hl).
Qed.






Lemma symmetric_sandwich (n : nat) (A P : mat) :
  symmetric n P -> symmetric n (sandwich n A P).
Proof.
  intros H i j Hi Hj.
  change (sandwich n A P j i) with (transpose (sandwich n A P) i j).
  rewrite transpose_sandwich.
  rewrite (sandwich_ext_r n A (transpose P) P); [reflexivity|].
  intros k l Hk Hl. unfold transpose. now apply H.
Qed.

Lemma symmetric_madd (n : nat) (P Q : mat) :
  symmetric n P -> symmetric n Q -> symmetric n (madd P Q).
Proof.
  intros HP HQ i j Hi Hj. unfold madd.
  now rewrite (HP i j Hi Hj), (HQ i j Hi Hj).
Qed.

(** ** The covariance recurrence [P' = A P A^T + Q] with a fixed [A] *)

Section Lyapunov.

Variable n : nat.
Variables A Q : mat.
Variable Pseq : nat -> mat.
Hypothesis Q_psd : psd n Q.
Hypothesis Pseq_0 : meq n (Pseq 0) zeros.
Hypothesis Pseq_S :
  forall k, meq n (Pseq (S k)) (madd (sandwich n A (Pseq k)) Q).



End Lyapunov.

(** ** Invariants of the covariance, for any loop of the shape
       [P_new = A P_old A^T + Q] *)

Lemma covariance_invariant (n : nat) (step : vec * mat -> vec * mat)
    (Aof : vec -> mat) (Q : mat) :
  (forall s, snd (step s) = madd (sandwich n (Aof (fst s)) (snd s)) Q) ->
  psd n Q -> symmetric n Q ->
  forall k s,
    psd n (snd s) -> symmetric n (snd s) ->
    psd n (snd (iter step k s)) /\ symmetric n (snd (iter step k s)).
Proof.
  intros Hstep HQ HQs. induction k as [|k IH]; intros s Hp Hs; simpl.
  - now split.
  - apply IH; rewrite Hstep.
    + apply psd_madd; [now apply psd_sandwich | exact HQ].
    + apply symmetric_madd; [now apply symmetric_sandwich | exact HQs].
Qed.

Lemma symmetric_zeros (n : nat) : symmetric n zeros.
Proof. intros i j _ _. reflexivity. Qed.

(** ** The constant-acceleration model *)

Lemma ca_Q_outer (dt : R) (i j : nat) :
  ca_Q dt i j = ca_G dt i 0%nat * ca_G dt j 0%nat * (1 / 10) ^ 2.
Proof. unfold ca_Q, mscale, matmul, transpose. simpl. ring. Qed.

Lemma ca_Q_psd (dt : R) : psd 6 (ca_Q dt).
Proof.
  apply (psd_ext 6 (fun i j => ca_G dt i 0%nat * ca_G dt j 0%nat * (1 / 10) ^ 2)).
  - intros i j _ _. now rewrite ca_Q_outer.
  - apply psd_outer. apply pow2_ge_0.
Qed.

Lemma ca_Q_symmetric (dt : R) : symmetric 6 (ca_Q dt).
Proof. intros i j _ _. rewrite !ca_Q_outer. ring. Qed.

Lemma ca_A_apply (dt x y vx vy : R) :
  veq 6 (matvec 6 (ca_A dt) (array1 [x; y; vx; vy; 0; 0]))
        (array1 [x + dt * vx; y + dt * vy; vx; vy; 0; 0]).
Proof.
  intros i Hi. unfold matvec, ca_A, array2, array1.
  do 6 (destruct i as [|i]; [simpl; ring|]). lia.
Qed.

Lemma ca_state_iter (dt : R) (Q P0 : mat) (x y vx vy : R) (k : nat) :
  veq 6
    (fst (iter (ca_step (ca_A dt) Q) k (array1 [x; y; vx; vy; 0; 0], P0)))
    (array1 [x + INR k * dt * vx; y + INR k * dt * vy; vx; vy; 0; 0]).
Proof.
  induction k as [|k IH].
  - intros i Hi. unfold array1.
    do 6 (destruct i as [|i]; [simpl; ring|]). lia.
  - rewrite iter_S. intros i Hi.
    change (fst (ca_step (ca_A dt) Q ?s)) with (matvec 6 (ca_A dt) (fst s)).
    rewrite (matvec_ext_r 6 (ca_A dt) _ _ IH i).
    rewrite (ca_A_apply dt _ _ vx vy i Hi). rewrite S_INR. unfold array1.
    do 6 (destruct i as [|i]; [simpl; ring|]). lia.
Qed.

Lemma ca_cov_iter (dt : R) (x0 : vec) (k : nat) :
  psd 6 (snd (iter (ca_step (ca_A dt) (ca_Q dt)) k (x0, zeros))) /\
  symmetric 6 (snd (iter (ca_step (ca_A dt) (ca_Q dt)) k (x0, zeros))).
Proof.
  apply (covariance_invariant 6 _ (fun _ => ca_A dt) (ca_Q dt)).
  - reflexivity.
  - apply ca_Q_psd.
  - apply ca_Q_symmetric.
  - apply psd_zeros.
  - apply symmetric_zeros.
Qed.


(** C3: constant velocity under zero acceleration.  [x_k] is the state
    after [k] runs of the loop body, which the method returns at position
    [k - 1]; with zero acceleration its position is
    [x_0 + k dt vx_0], [y_0 + k dt vy_0], and its velocity and acceleration
    are those of the initial state. *)
Theorem constantAcceleration_constant_velocity :
  forall (w : World) (fuel : nat) (x0 y0 vx0 vy0 : R)
         (states : list vec) (covs : list mat) (k : nat) (x_k : vec),
    constantAcceleration x0 y0 vx0 vy0 0 0 fuel w
      = (Return (states, covs), w) ->
    (1 <= k)%nat ->
    nth_error states (k - 1) = Some x_k ->
    x_k 0%nat = x0 + INR k * F2R (dt (self w)) * vx0 /\
    x_k 1%nat = y0 + INR k * F2R (dt (self w)) * vy0 /\
    x_k 2%nat = vx0 /\ x_k 3%nat = vy0 /\
    x_k 4%nat = 0 /\ x_k 5%nat = 0.
Proof.
  intros w fuel x0 y0 vx0 vy0 states covs k x_k Hrun Hk Hnth.
  rewrite constantAcceleration_unfold in Hrun.
  destruct (float_pow2 _); [discriminate|].
  destruct (timeSteps fuel _ _) as [n|]; [|discriminate].
  cbv zeta in Hrun. injection Hrun as Hs _. subst states.
  rewrite nth_error_map in Hnth.
  destruct (nth_error _ (k - 1)) as [s|] eqn:E; [|discriminate].
  injection Hnth as <-.
  apply traj_nth_inv in E. destruct E as [_ ->].
  replace (S (k - 1)) with k by lia.
  pose proof (ca_state_iter (F2R (dt (self w))) (ca_Q (F2R (dt (self w))))
                zeros x0 y0 vx0 vy0 k) as H.
  repeat split; (rewrite H by lia; reflexivity).
Qed.

Lemma constantAcceleration_constant_velocity_witness :
  let x_1 := matvec 6 (ca_A (F2R lit_0_1)) (array1 [0; 0; 10; 0; 0; 0]) in
  x_1 0%nat = 0 + INR 1 * F2R lit_0_1 * 10 /\
  x_1 1%nat = 0 + INR 1 * F2R lit_0_1 * 0 /\
  x_1 2%nat = 10 /\ x_1 3%nat = 0 /\ x_1 4%nat = 0 /\ x_1 5%nat = 0.
Proof.
  pose (tr := traj (ca_step (ca_A (F2R lit_0_1)) (ca_Q (F2R lit_0_1)))
                (array1 [0; 0; 10; 0; 0; 0], zeros) 30).
  apply (constantAcceleration_constant_velocity world_3s 31 0 0 10 0
           (map fst tr) (map snd tr) 1).
  - apply constantAcceleration_3s.
  - apply le_n.
  - reflexivity.
Defined.

(** ** The constant-turn-rate model *)

Lemma ctrv_Q_psd (dt : R) : psd 5 (ctrv_Q dt).
Proof.
  apply psd_diag. intros i.
  do 5 (destruct i as [|i]; [apply pow2_ge_0|]).
  destruct i; simpl; lra.
Qed.

Lemma ctrv_Q_symmetric (dt : R) : symmetric 5 (ctrv_Q dt).
Proof.
  intros i j _ _. unfold ctrv_Q, diag. rewrite (Nat.eqb_sym j i).
  destruct (Nat.eqb_spec i j) as [->|]; reflexivity.
Qed.

Lemma ctrv_cov_iter (dt : R) (x0 : vec) (k : nat) :
  psd 5 (snd (iter (ctrv_step dt (ctrv_Q dt)) k (x0, zeros))) /\
  symmetric 5 (snd (iter (ctrv_step dt (ctrv_Q dt)) k (x0, zeros))).
Proof.
  apply (covariance_invariant 5 _ (fun x => ctrv_A dt x) (ctrv_Q dt)).
  - reflexivity.
  - apply ctrv_Q_psd.
  - apply ctrv_Q_symmetric.
  - apply psd_zeros.
  - apply symmetric_zeros.
Qed.











Section TurnRateCovariance.

Variables dt x y yaw vel yawRate : R.

Let Q := ctrv_Q dt.
Let x_0 := array1 [x; y; yaw; vel; yawRate].





End TurnRateCovariance.

(** ** Both models at once *)

Lemma traj_previous {S : Type} (step : S -> S) (s0 : S) (n k : nat) :
  (k < n)%nat ->
  previous s0 (traj step s0 n) k = iter step k s0.
Proof.
  intros Hk. destruct k as [|k]; [reflexivity|]. simpl previous.
  apply nth_error_nth. apply traj_nth. lia.
Qed.

Lemma map_previous {A B : Type} (f : A -> B) (a : A) (l : list A) (k : nat) :
  previous (f a) (map f l) k = f (previous a l k).
Proof. destruct k; simpl; [reflexivity|]. apply map_nth. Qed.

Lemma model_cov_iter (dt : R) (m : model) (k : nat) :
  psd (dim m) (snd (iter (model_step dt m) k (initial m, zeros))) /\
  symmetric (dim m) (snd (iter (model_step dt m) k (initial m, zeros))).
Proof.
  destruct m.
  - apply (ca_cov_iter dt).
  - apply (ctrv_cov_iter dt).
Qed.









(** ** The linearized update of the turn-rate model *)





(** ** The validator *)

Lemma predictionValidator_unfold (states : list vec) (w : World) :
  predictionValidator states w =
  match num_predictions (self w) with
  | inl e => (Raise e, w)
  | inr n =>
      match validator_try (ODOM w) (VALIDATOR_COUNTER w) n states with
      | inr RMSE => (Return tt, advance w (OutNum RMSE))
      | inl _ => (Raise UnboundLocalError, advance w (OutStr "Index Error"))
      end
  end.
Proof.
  unfold predictionValidator, num_predictions, bind, get_self, lift.
  destruct (truediv _ _) as [e|q]; [reflexivity|]. cbv beta iota.
  unfold ret at 1. cbv beta iota.
  destruct (int q) as [e|n]; [reflexivity|]. unfold ret at 1. cbv beta iota.
  unfold try_except, bind, get_ODOM, get_VALIDATOR_COUNTER, lift.
  destruct (validator_try _ _ n states) as [e|r]; reflexivity.
Qed.

Lemma clip_le (len i : Z) : (0 <= len -> clip len i <= len)%Z.
Proof. unfold clip. destruct (i <? 0)%Z eqn:E; lia. Qed.

Lemma slice_exhausted {A : Type} (l : list A) (start stop : Z) :
  (Z.of_nat (length l) <= start)%Z -> slice l start stop = [].
Proof.
  intros H. unfold slice.
  pose proof (clip_le (Z.of_nat (length l)) stop ltac:(lia)) as Hhi.
  assert (Hlo : clip (Z.of_nat (length l)) start = Z.of_nat (length l)).
  { unfold clip. destruct (start <? 0)%Z eqn:E; lia. }
  rewrite Hlo.
  replace (Z.to_nat (clip (Z.of_nat (length l)) stop - Z.of_nat (length l)))
    with 0%nat by lia.
  reflexivity.
Qed.

Lemma slice_window {A : Type} (l : list A) (c n : Z) :
  (0 <= c)%Z -> (0 <= n)%Z -> (c + n <= Z.of_nat (length l))%Z ->
  slice l c (c + n) = firstn (Z.to_nat n) (skipn (Z.to_nat c) l).
Proof.
  intros Hc Hn Hlen. unfold slice, clip.
  destruct (c <? 0)%Z eqn:E1; [lia|].
  destruct (c + n <? 0)%Z eqn:E2; [lia|].
  rewrite !Z.min_l by lia. now replace (c + n - c)%Z with n by lia.
Qed.

(** C1 fails on the code (recorded as a defect of the code): when the
    reference log is used up and the prediction has two rows or more, the
    subtraction in the [try] block raises, the handler prints
    ["Index Error"], the cursor advances, and [print(RMSE)] then raises
    [UnboundLocalError] into the caller, since [RMSE] was never bound. *)
Theorem predictionValidator_exhausted_raises :
  forall (w : World) (states : list vec) (n : Z),
    num_predictions (self w) = inr n ->
    (Z.of_nat (length (ODOM w)) <= VALIDATOR_COUNTER w)%Z ->
    (2 <= length states)%nat ->
    predictionValidator states w
      = (Raise UnboundLocalError, advance w (OutStr "Index Error")).
Proof.
  intros w states n Hn Hlog Hrows.
  rewrite predictionValidator_unfold, Hn.
  unfold validator_try. rewrite slice_exhausted by exact Hlog.
  destruct states as [|s1 [|s2 states]]; simpl in Hrows; try lia.
  reflexivity.
Qed.

Lemma num_predictions_3s :
  num_predictions {| dt := lit_0_1; T := 3%float;
                     last_odom_msg := Odometry_new |} = inr 30%Z.
Proof. vm_compute. reflexivity. Qed.

Lemma states_3s_length : length states_3s = 30%nat.
Proof. unfold states_3s. now rewrite length_map, traj_length. Qed.

Lemma predictionValidator_exhausted_raises_witness :
  predictionValidator states_3s world_exhausted
    = (Raise UnboundLocalError,
       advance world_exhausted (OutStr "Index Error")).
Proof.
  apply (predictionValidator_exhausted_raises world_exhausted states_3s 30).
  - exact num_predictions_3s.
  - simpl. lia.
  - rewrite states_3s_length. lia.
Defined.

(** C7, as stated, fails: the cursor does not advance on every call.
    [int(self.T / self.dt)] is evaluated before the [try] block and before
    the increment; with [dt = 0] it raises [ZeroDivisionError], and with
    [T = 2^1000], [dt = 2^-1000] (both positive) it raises [OverflowError];
    either way the call ends with the cursor where it was. *)
Lemma cursor_counterexample :
  predictionValidator states_3s world_zero_dt
    = (Raise ZeroDivisionError, world_zero_dt) /\
  VALIDATOR_COUNTER (snd (predictionValidator states_3s world_zero_dt))
    <> (VALIDATOR_COUNTER world_zero_dt + 1)%Z /\
  predictionValidator states_3s world_overflow
    = (Raise OverflowError, world_overflow) /\
  VALIDATOR_COUNTER (snd (predictionValidator states_3s world_overflow))
    <> (VALIDATOR_COUNTER world_overflow + 1)%Z.
Proof.
  assert (H0 : predictionValidator states_3s world_zero_dt
               = (Raise ZeroDivisionError, world_zero_dt)).
  { rewrite predictionValidator_unfold.
    change (self world_zero_dt)
      with {| dt := 0%float; T := 3%float; last_odom_msg := Odometry_new |}.
    replace (num_predictions _) with (@inl exn Z ZeroDivisionError)
      by (vm_compute; reflexivity).
    reflexivity. }
  assert (H1 : predictionValidator states_3s world_overflow
               = (Raise OverflowError, world_overflow)).
  { rewrite predictionValidator_unfold.
    change (self world_overflow)
      with {| dt := 0x1p-1000%float; T := 0x1p1000%float;
              last_odom_msg := Odometry_new |}.
    replace (num_predictions _) with (@inl exn Z OverflowError)
      by (vm_compute; reflexivity).
    reflexivity. }
  rewrite H0, H1. simpl. repeat split; lia.
Qed.

Lemma validator_try_exhausted (ODOM : list (R * R)) (c n : Z)
    (states : list vec) :
  (Z.of_nat (length ODOM) <= c)%Z -> (2 <= length states)%nat ->
  validator_try ODOM c n states = inl ValueError.
Proof.
  intros Hlog Hrows. unfold validator_try.
  rewrite slice_exhausted by exact Hlog.
  destruct states as [|s1 [|s2 states]]; simpl in Hrows; try lia.
  reflexivity.
Qed.

Lemma validate_again_exhausted (states : list vec) (n : Z) (j : nat) :
  forall w : World,
    num_predictions (self w) = inr n ->
    (Z.of_nat (length (ODOM w)) <= VALIDATOR_COUNTER w)%Z ->
    (2 <= length states)%nat ->
    VALIDATOR_COUNTER (validate_again states j w)
      = (VALIDATOR_COUNTER w + Z.of_nat j)%Z /\
    stdout (validate_again states j w)
      = stdout w ++ repeat (OutStr "Index Error") j.
Proof.
  induction j as [|j IH]; intros w Hn Hlog Hrows.
  - simpl. rewrite app_nil_r. split; [lia|reflexivity].
  - cbn [validate_again].
    rewrite predictionValidator_unfold, Hn.
    rewrite (validator_try_exhausted _ _ n states Hlog Hrows). cbn [snd].
    destruct (IH (advance w (OutStr "Index Error"))) as [Hc Ho].
    + exact Hn.
    + simpl. lia.
    + exact Hrows.
    + rewrite Hc, Ho. simpl. rewrite <- app_assoc. split; [lia|reflexivity].
Qed.

(** C7, amended: on every validation call in which [int(T / dt)] is
    computed the cursor advances by exactly 1, whether the [try] block ran
    to its end or failed; once the log is used up, every further call with
    two or more predicted rows fails again (one more ["Index Error"] line,
    no number) and the cursor still advances, by [j] after [j] calls. *)
Theorem cursor_advances :
  forall (w : World) (states : list vec) (n : Z) (j : nat),
    num_predictions (self w) = inr n ->
    VALIDATOR_COUNTER (snd (predictionValidator states w))
      = (VALIDATOR_COUNTER w + 1)%Z /\
    ((Z.of_nat (length (ODOM w)) <= VALIDATOR_COUNTER w)%Z ->
     (2 <= length states)%nat ->
     VALIDATOR_COUNTER (validate_again states j w)
       = (VALIDATOR_COUNTER w + Z.of_nat j)%Z /\
     stdout (validate_again states j w)
       = stdout w ++ repeat (OutStr "Index Error") j).
Proof.
  intros w states n j Hn. split.
  - rewrite predictionValidator_unfold, Hn.
    destruct (validator_try _ _ n states); reflexivity.
  - intros Hlog Hrows. now apply (validate_again_exhausted states n).
Qed.

Lemma cursor_advances_witness :
  VALIDATOR_COUNTER (snd (predictionValidator states_3s world_exhausted))
    = 6%Z /\
  VALIDATOR_COUNTER (validate_again states_3s 2 world_exhausted) = 7%Z /\
  stdout (validate_again states_3s 2 world_exhausted)
    = [OutStr "Index Error"; OutStr "Index Error"].
Proof.
  destruct (cursor_advances world_exhausted states_3s 30 2 num_predictions_3s)
    as [H1 H2].
  split; [exact H1|].
  apply H2.
  - simpl. lia.
  - rewrite states_3s_length. lia.
Defined.

(** ** The metric of the validator *)

Lemma sum_shift (n : nat) (f : nat -> R) :
  sum (S n) f = f 0%nat + sum n (fun i => f (S i)).
Proof.
  induction n as [|n IH]; [simpl; ring|].
  change (sum (S (S n)) f) with (sum (S n) f + f (S n)).
  rewrite IH. simpl. ring.
Qed.

Lemma np_sum_distances (p : list (R * R)) :
  forall o : list (R * R),
    length p = length o ->
    np_sum (norm_axis1
              (map (fun po => sub2 (fst po) (snd po)) (combine p o)))
    = sum (length p)
        (fun i => euclid (nth i p (0, 0)) (nth i o (0, 0))).
Proof.
  induction p as [|a p IH]; intros [|b o] Hlen; try discriminate.
  - reflexivity.
  - cbn [length]. rewrite sum_shift.
    cbn [combine map norm_axis1 np_sum fold_right nth].
    unfold norm_axis1, np_sum in IH. rewrite (IH o) by (simpl in Hlen; lia).
    reflexivity.
Qed.

Lemma euclid_same (p : R * R) : euclid p p = 0.
Proof.
  unfold euclid.
  replace ((fst p - fst p) ^ 2 + (snd p - snd p) ^ 2) with 0 by ring.
  apply sqrt_0.
Qed.

Lemma mean_distance_same (l : list (R * R)) (N : Z) :
  mean_distance l l N = 0.
Proof.
  unfold mean_distance.
  rewrite (sum_ext _ _ (fun _ => 0)) by (intros; apply euclid_same).
  rewrite sum_zero. unfold Rdiv. ring.
Qed.

(** C8: when the horizon has [N = int(T / dt) >= 1] rows, the prediction has
    [N] rows and the log has the [N] rows [cursor, cursor + N), the call
    succeeds and prints the mean over these rows of the Euclidean distance
    between the predicted position and the log row; when the predicted
    positions are the rows of the log, it prints 0. *)
Theorem predictionValidator_mean_distance :
  forall (w : World) (states : list vec) (N : Z),
    num_predictions (self w) = inr N ->
    (1 <= N)%Z ->
    Z.of_nat (length states) = N ->
    (0 <= VALIDATOR_COUNTER w)%Z ->
    (VALIDATOR_COUNTER w + N <= Z.of_nat (length (ODOM w)))%Z ->
    let reference :=
      firstn (Z.to_nat N) (skipn (Z.to_nat (VALIDATOR_COUNTER w)) (ODOM w)) in
    predictionValidator states w
      = (Return tt,
         advance w (OutNum (mean_distance (positions states) reference N))) /\
    (positions states = reference ->
     predictionValidator states w = (Return tt, advance w (OutNum 0))).
Proof.
  intros w states N HN Hpos Hrows Hc Hlog reference.
  assert (Hlen : length reference = Z.to_nat N).
  { unfold reference. rewrite length_firstn, length_skipn. lia. }
  assert (Hrun : predictionValidator states w
                 = (Return tt,
                    advance w
                      (OutNum (mean_distance (positions states) reference N)))).
  { rewrite predictionValidator_unfold, HN. unfold validator_try.
    rewrite slice_window by lia. fold reference.
    destruct states as [|s1 states]; [simpl in Hrows; lia|].
    fold (positions (s1 :: states)).
    set (p := positions (s1 :: states)).
    assert (Hp : length p = Z.to_nat N).
    { unfold p, positions. rewrite length_map. lia. }
    unfold broadcast_sub. rewrite Hp, Hlen, Nat.eqb_refl.
    rewrite np_sum_distances by congruence.
    unfold mean_distance. now rewrite Hp. }
  split; [exact Hrun|].
  intros Heq. rewrite Hrun, Heq, mean_distance_same. reflexivity.
Qed.

Lemma predictionValidator_mean_distance_witness :
  predictionValidator states_3s world_logged
    = (Return tt,
       advance world_logged
         (OutNum (mean_distance (positions states_3s)
                    (repeat (0, 0) 30) 30))).
Proof.
  apply (predictionValidator_mean_distance world_logged states_3s 30).
  - exact num_predictions_3s.
  - lia.
  - rewrite states_3s_length. reflexivity.
  - simpl. lia.
  - simpl. lia.
Defined.

(** ** Construction *)

(** C9, as stated, fails: the constructor checks nothing.  With [dt = 0]
    and [T = 0], and with [dt = -1] and [T = -1], it returns a predictor;
    the second one also predicts without any error, returning no state at
    all because [0 <= -1] is false when the loop is entered. *)
Lemma init_counterexample :
  init 0%float 0%float
    = Return {| dt := 0%float; T := 0%float;
                last_odom_msg := Odometry_new |} /\
  init (-1)%float (-1)%float
    = Return {| dt := (-1)%float; T := (-1)%float;
                last_odom_msg := Odometry_new |} /\
  constantAcceleration 0 0 10 0 0 0 1
    (world_of {| dt := (-1)%float; T := (-1)%float;
                 last_odom_msg := Odometry_new |})
    = (Return ([], []),
       world_of {| dt := (-1)%float; T := (-1)%float;
                   last_odom_msg := Odometry_new |}).
Proof.
  split; [reflexivity|]. split; [reflexivity|].
  rewrite constantAcceleration_unfold.
  change (T (self (world_of ?o))) with (T o). cbn [T].
  replace (timeSteps 1 0%float (-1)%float) with (Some 0%nat)
    by (vm_compute; reflexivity).
  reflexivity.
Qed.

(** C9, amended: construction never rejects.  For every [dt] and [T],
    whatever their sign, the constructor returns a predictor that holds
    [dt] and [T] as given and a fresh odometry message. *)
Theorem init_accepts :
  forall dt0 T0 : float,
    exists obj : EgoTrajPrediction,
      init dt0 T0 = Return obj /\
      dt obj = dt0 /\ T obj = T0 /\ last_odom_msg obj = Odometry_new.
Proof.
  intros dt0 T0. eexists. split; [reflexivity|]. repeat split.
Qed.

(** ** What the methods leave unchanged *)

(** C10: neither model changes anything: the predictor ([dt], [T],
    [last_odom_msg]), the cursor, the log and the output channels are after
    the call what they were before.  [ROSCallback] and [visualize] leave
    the cursor and the log alone as well.  [predictionValidator] leaves the
    predictor and the log unchanged and is the one method that moves the
    cursor: by one, when [int(T / dt)] is computed. *)
Theorem methods_frame :
  forall (w : World) (fuel : nat)
         (xPos yPos xVel yVel xAcc yAcc yaw vel yawRate : R)
         (odom : Odometry) (states : list vec) (covariance : list mat),
    snd (constantAcceleration xPos yPos xVel yVel xAcc yAcc fuel w) = w /\
    snd (constantTurnRate xPos yPos yaw vel yawRate fuel w) = w /\
    (VALIDATOR_COUNTER (snd (ROSCallback odom w)) = VALIDATOR_COUNTER w /\
     ODOM (snd (ROSCallback odom w)) = ODOM w) /\
    (VALIDATOR_COUNTER (snd (visualize states covariance w))
       = VALIDATOR_COUNTER w /\
     ODOM (snd (visualize states covariance w)) = ODOM w /\
     self (snd (visualize states covariance w)) = self w) /\
    (self (snd (predictionValidator states w)) = self w /\
     ODOM (snd (predictionValidator states w)) = ODOM w /\
     VALIDATOR_COUNTER (snd (predictionValidator states w))
       = match num_predictions (self w) with
         | inr _ => (VALIDATOR_COUNTER w + 1)%Z
         | inl _ => VALIDATOR_COUNTER w
         end).
Proof.
  intros. split; [|split; [|split; [|split]]].
  - rewrite constantAcceleration_unfold.
    destruct (float_pow2 _); [reflexivity|].
    now destruct (timeSteps _ _ _).
  - unfold constantTurnRate, bind, get_self.
    destruct (ctrv_noise _); [reflexivity|]. cbn [lift ret].
    destruct (ctrv_while _ _ _ _ _ _ _ _ _) as [[e|r]|]; reflexivity.
  - split; reflexivity.
  - repeat split; reflexivity.
  - rewrite predictionValidator_unfold.
    destruct (num_predictions (self w)) as [e|n]; [repeat split|].
    destruct (validator_try _ _ n states); repeat split.
Qed.

(** ** Model selection *)

Lemma run_unfold
    (euler_from_quaternion : float * float * float * float -> R * R * R)
    (fuel : nat) (w : World) :
  run euler_from_quaternion fuel w
  = match run_squares (last_odom_msg (self w)) with
    | inl _ => (Raise OverflowError, w)
    | inr _ =>
        run_with (chosen_model euler_from_quaternion (last_odom_msg (self w)))
          fuel w
    end.
Proof.
  unfold run, run_with, run_squares, chosen_model, bind at 1, get_self.
  destruct (euler_from_quaternion _) as [[roll pitch] yaw]. cbn [snd].
  destruct (PrimFloat.ltb _ _); [reflexivity|].
  unfold speed_squares, speed_b64, bind at 1 2.
  destruct (float_pow2 (linear_x _)) as [e|x2] eqn:Ex.
  - now rewrite (float_pow2_error _ _ Ex).
  - cbn [lift ret]. unfold bind at 1.
    destruct (float_pow2 (linear_y _)) as [e|y2] eqn:Ey.
    + now rewrite (float_pow2_error _ _ Ey).
    + rewrite (float_pow2_value _ _ Ex), (float_pow2_value _ _ Ey).
      reflexivity.
Qed.

Lemma ctrv_while_raises (fuel : nat) :
  forall dt Q T t x P ss cs e,
    ctrv_while fuel dt Q T t x P ss cs = Some (inl e) -> e = ValueError.
Proof.
  induction fuel as [|fuel IH]; intros dt Q T t x P ss cs e H; simpl in H;
    [discriminate|].
  destruct (PrimFloat.leb t T); [|discriminate].
  destruct (ctrv_angles dt x) as [e0|] eqn:E.
  - injection H as <-. unfold ctrv_angles in E.
    cbv zeta in E.
    destruct (math_cos (x 2%nat)); [congruence|].
    destruct (math_cos (dt * x 4%nat + x 2%nat)); congruence.
  - now apply IH in H.
Qed.

(** When the squares before its loop do not overflow, a model does not
    raise [OverflowError]. *)
Lemma predict_no_overflow (m : model) (fuel : nat) (w w' : World) :
  squares m (dt (self w)) = inr tt ->
  predict m fuel w <> (Raise OverflowError, w').
Proof.
  intros Hsq H. destruct m; simpl in *.
  - rewrite constantAcceleration_unfold in H.
    destruct (float_pow2 _); [discriminate|].
    destruct (timeSteps _ _ _); discriminate.
  - unfold constantTurnRate, bind, get_self in H. rewrite Hsq in H.
    cbn [lift ret] in H.
    destruct (ctrv_while _ _ _ _ _ _ _ _ _) as [[e|r]|] eqn:E;
      cbn [lift ret raise diverge] in H; try discriminate.
    apply ctrv_while_raises in E. unfold raise in H. congruence.
Qed.

(** A call of [run] that gets to a model, on a predictor for which
    [int(T / dt)] is computed, does not end in [OverflowError] with the
    cursor where it was. *)
Lemma run_with_no_overflow (m : model) (fuel : nat) (w : World) (N : Z) :
  squares m (dt (self w)) = inr tt ->
  num_predictions (self w) = inr N ->
  run_with m fuel w <> (Raise OverflowError, w).
Proof.
  intros Hsq HN H. unfold run_with, bind at 1 in H.
  destruct (predict m fuel w) as [[[states covs]|e|] w1] eqn:E.
  - apply predict_returns in E. destruct E as (_ & _ & _ & _ & ->).
    unfold bind in H. rewrite predictionValidator_unfold, HN in H.
    destruct (validator_try _ _ N states); [discriminate|].
    unfold visualize, publish in H. discriminate.
  - injection H as -> ->. now apply predict_no_overflow in E.
  - discriminate.
Qed.

Lemma not_finite_inv (y : float) :
  PrimFloat.is_finite y = false ->
  Prim2SF y = S754_nan \/ exists s, Prim2SF y = S754_infinity s.
Proof.
  unfold PrimFloat.is_finite, PrimFloat.is_nan, PrimFloat.is_infinity.
  rewrite !FloatAxioms.eqb_spec, FloatAxioms.abs_spec.
  replace (Prim2SF infinity) with (S754_infinity false) by reflexivity.
  destruct (Prim2SF y) as [s|s| |s m e].
  - destruct s; discriminate.
  - intros _. right. now exists s.
  - intros _. now left.
  - unfold SFeqb, SFcompare. cbn [SFabs].
    rewrite Z.compare_refl, Pos.compare_cont_refl.
    destruct s; discriminate.
Qed.

Lemma not_finite_above_threshold (y : float) :
  PrimFloat.is_finite y = false ->
  PrimFloat.ltb (PrimFloat.abs y) lit_0_01 = false.
Proof.
  intros H. rewrite FloatAxioms.ltb_spec, FloatAxioms.abs_spec.
  destruct (not_finite_inv y H) as [E|[s E]]; rewrite E; reflexivity.
Qed.

(** C6, as stated, fails: for the sample [odom_fast], which turns at [0.02]
    and moves at [2^512] along [x], [run] does not predict with the
    turn-rate model, at the speed [sqrt(vx^2 + vy^2)] or at any other:
    [xVel ** 2] raises [OverflowError] before any model is called, and
    nothing is validated or published. *)
Lemma run_selects_model_counterexample :
  PrimFloat.ltb (PrimFloat.abs (angular_z odom_fast)) lit_0_01 = false /\
  run (fun _ => (0, 0, 0)) 31 world_fast = (Raise OverflowError, world_fast)
  /\
  (forall vel : R,
     run (fun _ => (0, 0, 0)) 31 world_fast
     <> run_with
          (CTRV (F2R (position_x odom_fast)) (F2R (position_y odom_fast)) 0
             vel (F2R (angular_z odom_fast)))
          31 world_fast).
Proof.
  assert (Hrun : run (fun _ => (0, 0, 0)) 31 world_fast
                 = (Raise OverflowError, world_fast)).
  { rewrite run_unfold.
    change (last_odom_msg (self world_fast)) with odom_fast.
    replace (run_squares odom_fast) with (@inl exn unit OverflowError)
      by (vm_compute; reflexivity).
    reflexivity. }
  split; [vm_compute; reflexivity|]. split; [exact Hrun|].
  intros vel. rewrite Hrun. intros H. symmetry in H. revert H.
  apply (run_with_no_overflow _ 31 world_fast 30).
  - exact (squares_0_1 (CTRV 0 0 0 0 0)).
  - vm_compute. reflexivity.
Qed.

(** C6, amended: when [run] is called after a sample [odom] has arrived,
    whatever the world was before, it predicts with the
    constant-acceleration model with zero acceleration if
    [abs(yawRate) < 0.01] holds for the turn rate of that sample.
    Otherwise it squares the two velocity components: if a square
    overflows, [run] raises [OverflowError] and calls no model; if not, it
    predicts with the turn-rate model at the speed [sqrt(vx^2 + vy^2)] of
    the sample as binary64 computes it (stated for a finite turn rate and
    a finite speed, the only ones the reals describe); then it validates
    and publishes.  A turn rate that is
    infinite or not a number fails the test, so it never selects the
    constant-acceleration model.  The test is strict and ignores the sign:
    a turn rate of [0.01] selects the turn-rate model, one of [-0.005] the
    other. *)
Theorem run_selects_model :
  forall (euler_from_quaternion : float * float * float * float -> R * R * R)
         (fuel : nat) (w : World) (odom : Odometry),
    let w' := snd (ROSCallback odom w) in
    let yaw :=
      snd (euler_from_quaternion
             (orientation_x odom, orientation_y odom,
              orientation_z odom, orientation_w odom)) in
    let yawRate := angular_z odom in
    (PrimFloat.ltb (PrimFloat.abs yawRate) lit_0_01 = true ->
     run euler_from_quaternion fuel w'
     = run_with
         (CA (F2R (position_x odom)) (F2R (position_y odom))
             (F2R (linear_x odom)) (F2R (linear_y odom)) 0 0)
         fuel w') /\
    (PrimFloat.ltb (PrimFloat.abs yawRate) lit_0_01 = false ->
     match speed_squares odom with
     | inl _ => run euler_from_quaternion fuel w' = (Raise OverflowError, w')
     | inr _ =>
         PrimFloat.is_finite yawRate = true ->
         PrimFloat.is_finite (speed_b64 odom) = true ->
         run euler_from_quaternion fuel w'
         = run_with
             (CTRV (F2R (position_x odom)) (F2R (position_y odom)) yaw
                (F2R (speed_b64 odom)) (F2R yawRate))
             fuel w'
     end) /\
    (PrimFloat.is_finite yawRate = false ->
     PrimFloat.ltb (PrimFloat.abs yawRate) lit_0_01 = false) /\
    PrimFloat.ltb (PrimFloat.abs lit_0_01) lit_0_01 = false /\
    PrimFloat.ltb (PrimFloat.abs (-0x1.47ae147ae147bp-8)%float) lit_0_01
      = true.
Proof.
  intros efq fuel w odom w' yaw yawRate.
  assert (Hrun := run_unfold efq fuel w').
  change (last_odom_msg (self w')) with odom in Hrun.
  unfold run_squares, chosen_model in Hrun. fold yawRate yaw in Hrun.
  split; [|split; [|split; [|split; vm_compute; reflexivity]]].
  - intros Ht. now rewrite Ht in Hrun.
  - intros Ht. rewrite Ht in Hrun.
    destruct (speed_squares odom); [exact Hrun|]. intros _ _. exact Hrun.
  - apply not_finite_above_threshold.
Qed.

Lemma run_selects_model_witness :
  run (fun _ => (0, 0, 0)) 31 world_turning
  = run_with
      (CTRV (F2R 0%float) (F2R 0%float) 0 (F2R 1%float) (F2R lit_0_01))
      31 world_turning.
Proof.
  pose proof (run_selects_model (fun _ => (0, 0, 0)) 31 world_logged
                odom_turning) as (_ & H & _).
  cbv zeta in H. specialize (H ltac:(vm_compute; reflexivity)).
  replace (speed_squares odom_turning) with (@inr exn unit tt) in H
    by (vm_compute; reflexivity).
  exact (H ltac:(vm_compute; reflexivity) ltac:(vm_compute; reflexivity)).
Defined.

(** * Further properties of the code *)

(** ** Constant acceleration in closed form *)

Lemma ca_A_apply_acc (dt x y vx vy ax ay : R) :
  veq 6 (matvec 6 (ca_A dt) (array1 [x; y; vx; vy; ax; ay]))
        (array1 [x + dt * vx + 1 / 2 * dt ^ 2 * ax;
                 y + dt * vy + 1 / 2 * dt ^ 2 * ay;
                 vx + dt * ax; vy + dt * ay; ax; ay]).
Proof.
  intros i Hi. unfold matvec, ca_A, array2, array1.
  do 6 (destruct i as [|i]; [simpl; ring|]). lia.
Qed.

Lemma ca_state_iter_acc (dt : R) (Q P0 : mat) (x y vx vy ax ay : R)
    (k : nat) :
  veq 6
    (fst (iter (ca_step (ca_A dt) Q) k (array1 [x; y; vx; vy; ax; ay], P0)))
    (array1 [x + INR k * dt * vx + 1 / 2 * ax * (INR k * dt) ^ 2;
             y + INR k * dt * vy + 1 / 2 * ay * (INR k * dt) ^ 2;
             vx + INR k * dt * ax; vy + INR k * dt * ay; ax; ay]).
Proof.
  induction k as [|k IH].
  - intros i Hi. unfold array1.
    do 6 (destruct i as [|i]; [simpl; ring|]). lia.
  - rewrite iter_S. intros i Hi.
    change (fst (ca_step (ca_A dt) Q ?s)) with (matvec 6 (ca_A dt) (fst s)).
    rewrite (matvec_ext_r 6 (ca_A dt) _ _ IH i).
    rewrite (ca_A_apply_acc dt _ _ _ _ ax ay i Hi). rewrite S_INR.
    unfold array1.
    do 6 (destruct i as [|i]; [simpl; field|]). lia.
Qed.

(** With any acceleration, the state after [k] runs of the loop body
    (returned at position [k - 1]) is the one of uniformly accelerated
    motion at time [t = k dt]: position [x_0 + t vx_0 + ax t^2 / 2],
    velocity [vx_0 + t ax], acceleration unchanged; the same in [y]. *)
Theorem constantAcceleration_kinematics :
  forall (w : World) (fuel : nat) (x0 y0 vx0 vy0 ax ay : R)
         (states : list vec) (covs : list mat) (k : nat) (x_k : vec),
    constantAcceleration x0 y0 vx0 vy0 ax ay fuel w
      = (Return (states, covs), w) ->
    (1 <= k)%nat ->
    nth_error states (k - 1) = Some x_k ->
    let t := INR k * F2R (dt (self w)) in
    x_k 0%nat = x0 + t * vx0 + 1 / 2 * ax * t ^ 2 /\
    x_k 1%nat = y0 + t * vy0 + 1 / 2 * ay * t ^ 2 /\
    x_k 2%nat = vx0 + t * ax /\ x_k 3%nat = vy0 + t * ay /\
    x_k 4%nat = ax /\ x_k 5%nat = ay.
Proof.
  intros w fuel x0 y0 vx0 vy0 ax ay states covs k x_k Hrun Hk Hnth t.
  rewrite constantAcceleration_unfold in Hrun.
  destruct (float_pow2 _); [discriminate|].
  destruct (timeSteps fuel _ _) as [n|]; [|discriminate].
  cbv zeta in Hrun. injection Hrun as Hs _. subst states.
  rewrite nth_error_map in Hnth.
  destruct (nth_error _ (k - 1)) as [s|] eqn:E; [|discriminate].
  injection Hnth as <-.
  apply traj_nth_inv in E. destruct E as [_ ->].
  replace (S (k - 1)) with k by lia.
  pose proof (ca_state_iter_acc (F2R (dt (self w)))
                (ca_Q (F2R (dt (self w)))) zeros x0 y0 vx0 vy0 ax ay k) as H.
  subst t. repeat split; (rewrite H by lia; reflexivity).
Qed.

Lemma constantAcceleration_kinematics_witness :
  let x_1 := matvec 6 (ca_A (F2R lit_0_1)) (array1 [0; 0; 10; 0; 2; 1]) in
  let t := INR 1 * F2R lit_0_1 in
  x_1 0%nat = 0 + t * 10 + 1 / 2 * 2 * t ^ 2 /\
  x_1 1%nat = 0 + t * 0 + 1 / 2 * 1 * t ^ 2 /\
  x_1 2%nat = 10 + t * 2 /\ x_1 3%nat = 0 + t * 1 /\
  x_1 4%nat = 2 /\ x_1 5%nat = 1.
Proof.
  pose (tr := traj (ca_step (ca_A (F2R lit_0_1)) (ca_Q (F2R lit_0_1)))
                (array1 [0; 0; 10; 0; 2; 1], zeros) 30).
  apply (constantAcceleration_kinematics world_3s 31 0 0 10 0 2 1
           (map fst tr) (map snd tr) 1).
  - apply constantAcceleration_3s.
  - apply le_n.
  - reflexivity.
Defined.

(** ** The turn-rate model, step by step *)

Lemma constantTurnRate_output (w : World) (fuel : nat)
    (xPos yPos yaw vel yawRate : R) (states : list vec) (covs : list mat)
    (k : nat) (x_new : vec) :
  constantTurnRate xPos yPos yaw vel yawRate fuel w
    = (Return (states, covs), w) ->
  nth_error states k = Some x_new ->
  let dt0 := F2R (dt (self w)) in
  let s0 := (array1 [xPos; yPos; yaw; vel; yawRate], zeros) in
  let x_old := fst (iter (ctrv_step dt0 (ctrv_Q dt0)) k s0) in
  previous (array1 [xPos; yPos; yaw; vel; yawRate]) states k = x_old /\
  x_new = matvec 5 (ctrv_A dt0 x_old) x_old.
Proof.
  intros Hrun Hk dt0 s0 x_old.
  apply constantTurnRate_returns in Hrun.
  destruct Hrun as (len & _ & Hrun & _).
  symmetry in Hrun. injection Hrun as Hs _. fold dt0 in Hs. fold s0 in Hs.
  set (tr := traj (ctrv_step dt0 (ctrv_Q dt0)) s0 len) in *.
  assert (Hlen : (k < len)%nat).
  { rewrite <- (traj_length (ctrv_step dt0 (ctrv_Q dt0)) len s0). fold tr.
    rewrite <- (length_map fst), Hs. apply nth_error_Some. congruence. }
  subst states. split.
  - change (array1 [xPos; yPos; yaw; vel; yawRate]) with (fst s0).
    rewrite map_previous. unfold tr. now rewrite traj_previous by exact Hlen.
  - rewrite nth_error_map in Hk.
    destruct (nth_error tr k) as [s|] eqn:E; [|discriminate].
    injection Hk as <-. apply traj_nth_inv in E. destruct E as [_ ->].
    rewrite iter_S. reflexivity.
Qed.

(** What one run of the loop body of the turn-rate model does to the
    state, for a turn rate other than 0: heading advances by
    [dt yawRate], speed and turn rate stay, and the position moves by
    [dt vel] along the new heading plus a term proportional to the value of
    the old heading, [yaw_old (vel / yawRate) (cos yaw_new - cos yaw_old)]
    in [x] and the same with [sin] in [y]. *)
Theorem constantTurnRate_step :
  forall (w : World) (fuel : nat) (xPos yPos yaw vel yawRate : R)
         (states : list vec) (covs : list mat) (k : nat) (x_new : vec),
    constantTurnRate xPos yPos yaw vel yawRate fuel w
      = (Return (states, covs), w) ->
    nth_error states k = Some x_new ->
    yawRate <> 0 ->
    let dt := F2R (dt (self w)) in
    let x_old := previous (array1 [xPos; yPos; yaw; vel; yawRate]) states k in
    let yaw_old := yaw + INR k * (dt * yawRate) in
    let yaw_new := yaw_old + dt * yawRate in
    x_old 2%nat = yaw_old /\
    x_new 0%nat
      = x_old 0%nat
        + yaw_old * (vel / yawRate * (cos yaw_new - cos yaw_old))
        + dt * vel * cos yaw_new /\
    x_new 1%nat
      = x_old 1%nat
        + yaw_old * (vel / yawRate * (sin yaw_new - sin yaw_old))
        + dt * vel * sin yaw_new /\
    x_new 2%nat = yaw_new /\ x_new 3%nat = vel /\ x_new 4%nat = yawRate.
Proof.
  intros w fuel xPos yPos yaw vel yawRate states covs k x_new Hrun Hk Hrate
         dt0 x_old yaw_old yaw_new.
  destruct (constantTurnRate_output w fuel xPos yPos yaw vel yawRate
              states covs k x_new Hrun Hk) as [Hold Hnew].
  fold dt0 in Hold, Hnew. fold x_old in Hold.
  destruct (ctrv_state_iter dt0 (ctrv_Q dt0) zeros xPos yPos yaw vel yawRate k)
    as (H2 & H3 & H4).
  rewrite <- Hold in H2, H3, H4, Hnew. fold yaw_old in H2.
  split; [exact H2|]. rewrite Hnew.
  cbv [matvec ctrv_A array2 sum nth]. rewrite H2, H3, H4.
  replace (dt0 * yawRate + yaw_old) with yaw_new by (unfold yaw_new; ring).
  repeat split; try (unfold yaw_new; ring); field; exact Hrate.
Qed.

Lemma constantTurnRate_step_witness :
  let dt := F2R lit_0_1 in
  let x_0 := array1 [0; 0; 0; 10; 1] in
  let x_1 := matvec 5 (ctrv_A dt x_0) x_0 in
  x_1 2%nat = 0 + INR 0 * (dt * 1) + dt * 1 /\
  x_1 3%nat = 10 /\ x_1 4%nat = 1.
Proof.
  intros dt0 x_0 x_1.
  pose (tr := traj (ctrv_step dt0 (ctrv_Q dt0)) (x_0, zeros) 30).
  assert (Hrun : constantTurnRate 0 0 0 10 1 31 world_3s
                 = (Return (map fst tr, map snd tr), world_3s)).
  { apply constantTurnRate_3s; [rewrite Rabs_R0; lra | rewrite Rabs_R1; lra]. }
  destruct (constantTurnRate_step world_3s 31 0 0 0 10 1
              (map fst tr) (map snd tr) 0 x_1 Hrun eq_refl R1_neq_R0)
    as (_ & _ & _ & Hyaw & Hvel & Hrate).
  split; [exact Hyaw|]. split; [exact Hvel | exact Hrate].
Defined.

Lemma F2R_1 : F2R 1%float = 1.
Proof.
  unfold F2R.
  replace (Prim2SF 1%float)
    with (S754_finite false 4503599627370496 (-52))
    by (vm_compute; reflexivity).
  unfold powerRZ. rewrite (pow_IZR 2).
  replace (Z.pow 2 (Z.of_nat (Pos.to_nat 52))) with 4503599627370496%Z
    by (vm_compute; reflexivity).
  field.
Qed.

Lemma constantTurnRate_1s (xPos yPos yaw vel yawRate : R) :
  Rabs yaw <= 10 -> Rabs yawRate <= 10 ->
  let tr :=
    traj (ctrv_step (F2R 1%float) (ctrv_Q (F2R 1%float)))
      (array1 [xPos; yPos; yaw; vel; yawRate], zeros) 30 in
  constantTurnRate xPos yPos yaw vel yawRate 31 world_1s
  = (Return (map fst tr, map snd tr), world_1s).
Proof.
  intros Hyaw Hrate tr.
  apply (constantTurnRate_runs xPos yPos yaw vel yawRate 31 world_1s 30).
  - exact (squares_1 (CTRV 0 0 0 0 0)).
  - exact timeSteps_3s.
  - apply headings_small; [|exact Hyaw | exact Hrate].
    change (dt (self world_1s)) with 1%float. rewrite F2R_1. lra.
Qed.

Lemma cos_full_turn (a : R) : cos (a + 2 * PI) = cos a.
Proof. rewrite cos_plus, cos_2PI, sin_2PI. ring. Qed.

Lemma sin_full_turn (a : R) : sin (a + 2 * PI) = sin a.
Proof. rewrite sin_plus, cos_2PI, sin_2PI. ring. Qed.

(** The prediction of the turn-rate model depends on the value of the
    heading, not only on the direction it denotes: a heading larger by a
    full turn moves the first predicted position by
    [2 PI (vel / yawRate) (cos (yaw + dt yawRate) - cos yaw)] in [x] and by
    the same with [sin] in [y]. *)
Theorem constantTurnRate_full_turn :
  forall (w : World) (fuel : nat) (xPos yPos yaw vel yawRate : R)
         (states states' : list vec) (covs covs' : list mat)
         (x_1 x_1' : vec),
    constantTurnRate xPos yPos yaw vel yawRate fuel w
      = (Return (states, covs), w) ->
    constantTurnRate xPos yPos (yaw + 2 * PI) vel yawRate fuel w
      = (Return (states', covs'), w) ->
    nth_error states 0 = Some x_1 ->
    nth_error states' 0 = Some x_1' ->
    yawRate <> 0 ->
    let dt := F2R (dt (self w)) in
    x_1' 0%nat - x_1 0%nat
      = 2 * PI * (vel / yawRate * (cos (yaw + dt * yawRate) - cos yaw)) /\
    x_1' 1%nat - x_1 1%nat
      = 2 * PI * (vel / yawRate * (sin (yaw + dt * yawRate) - sin yaw)).
Proof.
  intros w fuel xPos yPos yaw vel yawRate states states' covs covs' x_1 x_1'
         Hrun Hrun' H1 H1' Hrate dt0.
  destruct (constantTurnRate_output w fuel xPos yPos yaw vel yawRate
              states covs 0 x_1 Hrun H1) as [_ Hx].
  destruct (constantTurnRate_output w fuel xPos yPos (yaw + 2 * PI) vel
              yawRate states' covs' 0 x_1' Hrun' H1') as [_ Hx'].
  fold dt0 in Hx, Hx'. cbn [iter fst] in Hx, Hx'. rewrite Hx, Hx'.
  cbv [matvec ctrv_A array2 array1 sum nth].
  replace (dt0 * yawRate + (yaw + 2 * PI))
    with (dt0 * yawRate + yaw + 2 * PI) by ring.
  rewrite !cos_full_turn, !sin_full_turn.
  replace (dt0 * yawRate + yaw) with (yaw + dt0 * yawRate) by ring.
  split; field; exact Hrate.
Qed.

Lemma constantTurnRate_full_turn_witness :
  let x_0 := array1 [0; 0; 0; 1; PI] in
  let x_0' := array1 [0; 0; 0 + 2 * PI; 1; PI] in
  matvec 5 (ctrv_A (F2R 1%float) x_0') x_0' 0%nat
  - matvec 5 (ctrv_A (F2R 1%float) x_0) x_0 0%nat
  = 2 * PI * (1 / PI * (cos (0 + F2R 1%float * PI) - cos 0)).
Proof.
  intros x_0 x_0'.
  pose (tr := traj (ctrv_step (F2R 1%float) (ctrv_Q (F2R 1%float)))
                (x_0, zeros) 30).
  pose (tr' := traj (ctrv_step (F2R 1%float) (ctrv_Q (F2R 1%float)))
                 (x_0', zeros) 30).
  assert (Hrun : constantTurnRate 0 0 0 1 PI 31 world_1s
                 = (Return (map fst tr, map snd tr), world_1s)).
  { pose proof PI_RGT_0. pose proof PI_4.
    apply constantTurnRate_1s; rewrite Rabs_pos_eq; lra. }
  assert (Hrun' : constantTurnRate 0 0 (0 + 2 * PI) 1 PI 31 world_1s
                  = (Return (map fst tr', map snd tr'), world_1s)).
  { pose proof PI_RGT_0. pose proof PI_4.
    apply constantTurnRate_1s; rewrite Rabs_pos_eq; lra. }
  exact (proj1 (constantTurnRate_full_turn world_1s 31 0 0 0 1 PI
                  (map fst tr) (map fst tr') (map snd tr) (map snd tr')
                  _ _ Hrun Hrun' eq_refl eq_refl PI_neq0)).
Defined.

(** At [dt = 1], heading 0, speed 1 and turn rate [PI] that difference is
    [-4]. *)
Lemma full_turn_example :
  2 * PI * (1 / PI * (cos (0 + F2R 1%float * PI) - cos 0)) = -4.
Proof.
  rewrite F2R_1. replace (0 + 1 * PI) with PI by ring.
  rewrite cos_PI, cos_0. field. exact PI_neq0.
Qed.

(** ** More on the covariance *)

Lemma predict_output (w : World) (m : model) (fuel : nat)
    (states : list vec) (covs : list mat) (k : nat) :
  predict m fuel w = (Return (states, covs), w) ->
  let step := model_step (F2R (dt (self w))) m in
  (forall x, nth_error states k = Some x ->
             x = fst (iter step (S k) (initial m, zeros))) /\
  (forall P, nth_error covs k = Some P ->
             P = snd (iter step (S k) (initial m, zeros))).
Proof.
  intros Hrun step. apply predict_returns in Hrun.
  destruct Hrun as (len & _ & _ & Hrun & _). injection Hrun as -> ->.
  split; intros y Hy; rewrite nth_error_map in Hy;
    destruct (nth_error _ k) as [s|] eqn:E; try discriminate;
    injection Hy as <-; apply traj_nth_inv in E; destruct E as [_ ->];
    reflexivity.
Qed.

(** In exact arithmetic, with a finite [dt] and a turn rate other than 0
    for the turn-rate model, no covariance of the recurrence a model computes is
    below the process noise: [P - Q] is positive semi-definite, so the
    trace of [P] is at least the trace of [Q]; and the first covariance is
    [Q] itself.  (The binary64 values agree with the recurrence up to
    rounding, which can break positive semi-definiteness.) *)
Theorem covariance_dominates_noise :
  forall (w : World) (m : model) (fuel : nat)
         (states : list vec) (covs : list mat) (k : nat) (P : mat),
    predict m fuel w = (Return (states, covs), w) ->
    nth_error covs k = Some P ->
    PrimFloat.is_finite (dt (self w)) = true ->
    turning m ->
    let n := dim m in
    let Q := noise (F2R (dt (self w))) m in
    psd n (msub P Q) /\
    trace n Q <= trace n P /\
    match k with
    | O => meq n P Q
    | S _ => True
    end.
Proof.
  intros w m fuel states covs k P Hrun Hk Hdt Hturn n Q.
  destruct (predict_output w m fuel states covs k Hrun) as [_ HP].
  specialize (HP P Hk). rewrite iter_S in HP.
  set (s := iter _ k _) in HP.
  change (snd (model_step (F2R (dt (self w))) m s))
    with (madd (sandwich n (transition (F2R (dt (self w))) m (fst s)) (snd s))
            Q) in HP.
  assert (Hd : psd n (msub P Q)).
  { apply (psd_ext n (sandwich n (transition (F2R (dt (self w))) m (fst s))
                        (snd s))).
    - intros i j _ _. rewrite HP. unfold msub, madd. ring.
    - apply psd_sandwich. apply model_cov_iter. }
  split; [exact Hd|]. split.
  - pose proof (trace_psd n _ Hd) as Ht. rewrite trace_msub in Ht. lra.
  - destruct k as [|k]; [|exact I].
    intros i j _ _. rewrite HP. subst s. cbn [iter snd].
    rewrite sandwich_zeros. unfold madd, zeros. ring.
Qed.

Lemma covariance_dominates_noise_witness :
  let dt := F2R lit_0_1 in
  let P_1 := madd (sandwich 5 (ctrv_A dt (array1 [0; 0; 0; 10; 1])) zeros)
               (ctrv_Q dt) in
  trace 5 (ctrv_Q dt) <= trace 5 P_1 /\ meq 5 P_1 (ctrv_Q dt).
Proof.
  intros dt0 P_1.
  pose (tr := traj (model_step dt0 (CTRV 0 0 0 10 1))
                (initial (CTRV 0 0 0 10 1), zeros) 30).
  assert (Hrun : predict (CTRV 0 0 0 10 1) 31 world_3s
                 = (Return (map fst tr, map snd tr), world_3s)).
  { apply predict_3s. apply headings_small.
    - exact F2R_0_1_bounds.
    - rewrite Rabs_R0. lra.
    - rewrite Rabs_R1. lra. }
  destruct (covariance_dominates_noise world_3s (CTRV 0 0 0 10 1) 31
              (map fst tr) (map snd tr) 0 P_1 Hrun eq_refl eq_refl
              R1_neq_R0)
    as (_ & Htr & Hfirst).
  split; [exact Htr | exact Hfirst].
Defined.

Lemma ca_cov_traj (A Q : mat) (n : nat) :
  forall (x : vec) (P : mat),
    map snd (traj (ca_step A Q) (x, P) n)
    = traj (fun P => madd (sandwich 6 A P) Q) P n.
Proof.
  induction n as [|n IH]; intros x P; [reflexivity|].
  cbn [traj map]. f_equal. apply IH.
Qed.

(** The covariances of the constant-acceleration model do not depend on
    the state it starts from: two calls on the same predictor return the
    same covariances. *)
Theorem constantAcceleration_covariance_state_free :
  forall (w : World) (fuel : nat)
         (xPos yPos xVel yVel xAcc yAcc : R)
         (xPos' yPos' xVel' yVel' xAcc' yAcc' : R)
         (states states' : list vec) (covs covs' : list mat),
    constantAcceleration xPos yPos xVel yVel xAcc yAcc fuel w
      = (Return (states, covs), w) ->
    constantAcceleration xPos' yPos' xVel' yVel' xAcc' yAcc' fuel w
      = (Return (states', covs'), w) ->
    covs' = covs.
Proof.
  intros w fuel xPos yPos xVel yVel xAcc yAcc
         xPos' yPos' xVel' yVel' xAcc' yAcc' states states' covs covs'
         Hrun Hrun'.
  rewrite constantAcceleration_unfold in Hrun, Hrun'.
  destruct (float_pow2 _); [discriminate|].
  destruct (timeSteps fuel _ _) as [n|]; [|discriminate].
  cbv zeta in Hrun, Hrun'.
  injection Hrun as _ <-. injection Hrun' as _ <-.
  now rewrite !ca_cov_traj.
Qed.

Lemma constantAcceleration_covariance_state_free_witness :
  let A := ca_A (F2R lit_0_1) in
  let Q := ca_Q (F2R lit_0_1) in
  map snd (traj (ca_step A Q) (array1 [5; 7; 0; 3; 1; 1], zeros) 30)
  = map snd (traj (ca_step A Q) (array1 [0; 0; 10; 0; 0; 0], zeros) 30).
Proof.
  intros A Q.
  apply (constantAcceleration_covariance_state_free world_3s 31
           0 0 10 0 0 0 5 7 0 3 1 1
           (map fst (traj (ca_step A Q) (array1 [0; 0; 10; 0; 0; 0], zeros) 30))
           (map fst (traj (ca_step A Q) (array1 [5; 7; 0; 3; 1; 1], zeros) 30))).
  - apply constantAcceleration_3s.
  - apply constantAcceleration_3s.
Defined.

(** ** Moving the start position *)

Lemma model_step_shifted (dt : R) (a b : R) (m : model) (s : vec * mat) :
  model_step dt (shifted a b m) s = model_step dt m s.
Proof. destruct m; reflexivity. Qed.

Lemma transition_shift (dt a b : R) (m : model) (x x' : vec) :
  veq (dim m) x' (shift_vec a b x) ->
  transition dt m x' = transition dt m x.
Proof.
  intros H. destruct m; [reflexivity|]. cbn [transition dim] in *.
  unfold ctrv_A.
  rewrite (H 2%nat ltac:(lia)), (H 3%nat ltac:(lia)), (H 4%nat ltac:(lia)).
  reflexivity.
Qed.

Lemma matvec_shift (dt a b : R) (m : model) (y x : vec) :
  veq (dim m) (matvec (dim m) (transition dt m y) (shift_vec a b x))
              (shift_vec a b (matvec (dim m) (transition dt m y) x)).
Proof.
  intros i Hi. destruct m; cbn [dim transition] in *.
  - do 6 (destruct i as [|i];
          [cbv [matvec sum ca_A array2 nth shift_vec]; unfold Rdiv; ring|]).
    lia.
  - do 5 (destruct i as [|i];
          [cbv [matvec sum ctrv_A array2 nth shift_vec]; unfold Rdiv; ring|]).
    lia.
Qed.

Lemma iter_shift (dt a b : R) (m : model) (k : nat) :
  forall s s' : vec * mat,
    veq (dim m) (fst s') (shift_vec a b (fst s)) -> snd s' = snd s ->
    veq (dim m) (fst (iter (model_step dt m) k s'))
                (shift_vec a b (fst (iter (model_step dt m) k s))) /\
    snd (iter (model_step dt m) k s') = snd (iter (model_step dt m) k s).
Proof.
  induction k as [|k IH]; intros s s' Hf Hs; [now split|].
  cbn [iter]. apply IH.
  - cbn [model_step fst]. rewrite (transition_shift dt a b m _ _ Hf).
    intros i Hi.
    rewrite (matvec_ext_r (dim m) _ _ _ Hf i).
    now apply matvec_shift.
  - cbn [model_step snd].
    now rewrite (transition_shift dt a b m _ _ Hf), Hs.
Qed.

Lemma initial_shifted (a b : R) (m : model) :
  veq (dim m) (initial (shifted a b m)) (shift_vec a b (initial m)).
Proof.
  intros i Hi. destruct m; cbn [dim] in Hi.
  - do 6 (destruct i as [|i]; [reflexivity|]). lia.
  - do 5 (destruct i as [|i]; [reflexivity|]). lia.
Qed.

(** Both models commute with a translation of the start position: started
    [(a, b)] further, a model returns every state [(a, b)] further, with
    the other components unchanged, and the same covariances. *)
Theorem prediction_translates :
  forall (w : World) (m : model) (fuel : nat) (a b : R)
         (states states' : list vec) (covs covs' : list mat)
         (k : nat) (x x' : vec) (P P' : mat),
    predict m fuel w = (Return (states, covs), w) ->
    predict (shifted a b m) fuel w = (Return (states', covs'), w) ->
    nth_error states k = Some x -> nth_error states' k = Some x' ->
    nth_error covs k = Some P -> nth_error covs' k = Some P' ->
    veq (dim m) x' (shift_vec a b x) /\ P' = P.
Proof.
  intros w m fuel a b states states' covs covs' k x x' P P'
         Hrun Hrun' Hx Hx' HP HP'.
  destruct (predict_output w m fuel states covs k Hrun) as [Hs Hc].
  destruct (predict_output w (shifted a b m) fuel states' covs' k Hrun')
    as [Hs' Hc'].
  cbv zeta in Hs, Hc, Hs', Hc'.
  rewrite (Hs x Hx), (Hs' x' Hx'), (Hc P HP), (Hc' P' HP').
  set (dt0 := F2R (dt (self w))).
  replace (iter (model_step dt0 (shifted a b m)) (S k)
             (initial (shifted a b m), zeros))
    with (iter (model_step dt0 m) (S k) (initial (shifted a b m), zeros)).
  - apply (iter_shift dt0 a b m (S k) (initial m, zeros)
             (initial (shifted a b m), zeros)).
    + apply initial_shifted.
    + reflexivity.
  - generalize (initial (shifted a b m), zeros). generalize (S k).
    intros j. induction j as [|j IH]; intros s; [reflexivity|].
    cbn [iter]. rewrite model_step_shifted. apply IH.
Qed.

Lemma prediction_translates_witness :
  let dt := F2R lit_0_1 in
  let x_1 := matvec 6 (ca_A dt) (array1 [0; 0; 10; 0; 0; 0]) in
  let x_1' := matvec 6 (ca_A dt) (array1 [0 + 3; 0 + 4; 10; 0; 0; 0]) in
  veq 6 x_1' (shift_vec 3 4 x_1).
Proof.
  intros dt0 x_1 x_1'.
  pose (m := CA 0 0 10 0 0 0).
  pose (tr := traj (model_step dt0 m) (initial m, zeros) 30).
  pose (tr' := traj (model_step dt0 (shifted 3 4 m))
                 (initial (shifted 3 4 m), zeros) 30).
  assert (Hrun : predict m 31 world_3s
                 = (Return (map fst tr, map snd tr), world_3s)).
  { apply predict_3s. exact I. }
  assert (Hrun' : predict (shifted 3 4 m) 31 world_3s
                  = (Return (map fst tr', map snd tr'), world_3s)).
  { apply predict_3s. exact I. }
  exact (proj1 (prediction_translates world_3s m 31 3 4
                  (map fst tr) (map fst tr') (map snd tr) (map snd tr')
                  0 x_1 x_1' _ _ Hrun Hrun' eq_refl eq_refl eq_refl eq_refl)).
Defined.

(** ** When the validator returns *)

Lemma broadcast_sub_ok (p o : list (R * R)) :
  (exists d, broadcast_sub p o = inr d) <->
  (length p = length o \/ length p = 1%nat \/ length o = 1%nat).
Proof.
  unfold broadcast_sub.
  destruct (Nat.eqb_spec (length p) (length o)) as [E|E].
  { split; [intros _; now left | intros _; eexists; reflexivity]. }
  destruct (Nat.eqb_spec (length p) 1) as [E1|E1].
  { split; [intros _; right; now left | intros _; eexists; reflexivity]. }
  destruct (Nat.eqb_spec (length o) 1) as [E2|E2].
  { split; [intros _; right; now right | intros _; eexists; reflexivity]. }
  split; [intros [d Hd]; discriminate | intros [H|[H|H]]; contradiction].
Qed.

(** The call returns normally exactly when the prediction is not empty and
    its number of rows equals the number of rows of the slice of the log, or
    one of the two numbers is 1 (the single row is then compared with every
    row of the other array); in every other case it raises
    [UnboundLocalError].  The horizon [int(T / dt)] plays no part in
    this. *)
Theorem predictionValidator_returns_iff :
  forall (w : World) (states : list vec) (N : Z),
    num_predictions (self w) = inr N ->
    let K :=
      length (slice (ODOM w) (VALIDATOR_COUNTER w)
                (VALIDATOR_COUNTER w + N)) in
    let M := length states in
    (fst (predictionValidator states w) = Return tt <->
     M <> 0%nat /\ (M = K \/ M = 1%nat \/ K = 1%nat)) /\
    (fst (predictionValidator states w) = Return tt \/
     fst (predictionValidator states w) = Raise UnboundLocalError).
Proof.
  intros w states N HN K M.
  rewrite predictionValidator_unfold, HN. unfold validator_try.
  fold (positions states).
  destruct states as [|s1 states].
  { split; [|now right]. split; [discriminate|]. intros [H _]. now elim H. }
  set (p := positions (s1 :: states)).
  assert (Hp : length p = M)
    by (unfold p, positions; now rewrite length_map).
  pose proof (broadcast_sub_ok p
                (slice (ODOM w) (VALIDATOR_COUNTER w)
                   (VALIDATOR_COUNTER w + N))) as Hb.
  fold K in Hb. rewrite Hp in Hb.
  destruct (broadcast_sub p _) as [e|d] eqn:E.
  - split; [|now right]. split; [discriminate|].
    intros [_ H]. apply Hb in H. destruct H as [d Hd]. discriminate.
  - split; [|now left]. split; [|reflexivity].
    intros _. split; [subst M; simpl; lia|]. apply Hb. now exists d.
Qed.

Lemma num_predictions_short :
  num_predictions {| dt := lit_0_1; T := lit_0_3;
                     last_odom_msg := Odometry_new |} = inr 2%Z.
Proof. vm_compute. reflexivity. Qed.

Lemma timeSteps_short : timeSteps 31 0%float lit_0_3 = Some 3%nat.
Proof. vm_compute. reflexivity. Qed.

(** With [dt = 0.1] and [T = 0.3] the model returns 3 states while
    [int(T / dt)] is 2 ([0.3 / 0.1] is [2.9999999999999996] in binary64):
    the validator raises although the log has rows enough. *)
Lemma predictionValidator_returns_iff_witness :
  let states :=
    map fst
      (traj (ca_step (ca_A (F2R lit_0_1)) (ca_Q (F2R lit_0_1)))
         (array1 [0; 0; 10; 0; 0; 0], zeros) 3) in
  constantAcceleration 0 0 10 0 0 0 31 world_short
    = (Return (states,
               map snd
                 (traj (ca_step (ca_A (F2R lit_0_1)) (ca_Q (F2R lit_0_1)))
                    (array1 [0; 0; 10; 0; 0; 0], zeros) 3)),
       world_short) /\
  fst (predictionValidator states world_short) = Raise UnboundLocalError.
Proof.
  intros states. split.
  - rewrite constantAcceleration_unfold.
    change (T (self world_short)) with lit_0_3. rewrite timeSteps_short.
    reflexivity.
  - destruct (predictionValidator_returns_iff world_short states 2
                num_predictions_short) as [Hiff [H|H]]; [|exact H].
    exfalso. apply Hiff in H. destruct H as [_ [H|[H|H]]]; discriminate H.
Defined.

(** A log that is used up is reported as a perfect match when the
    prediction has a single row: the difference of that row with no row at
    all is an empty array, its sum is 0, and the call prints [0 / N = 0]. *)
Theorem predictionValidator_single_row_exhausted :
  forall (w : World) (s : vec) (N : Z),
    num_predictions (self w) = inr N ->
    N <> 0%Z ->
    (Z.of_nat (length (ODOM w)) <= VALIDATOR_COUNTER w)%Z ->
    predictionValidator [s] w = (Return tt, advance w (OutNum 0)).
Proof.
  intros w s N HN HN0 Hlog.
  rewrite predictionValidator_unfold, HN. unfold validator_try.
  rewrite slice_exhausted by exact Hlog.
  cbn. unfold Rdiv. now rewrite Rmult_0_l.
Qed.

Lemma num_predictions_fine :
  num_predictions {| dt := lit_0_01; T := lit_0_05;
                     last_odom_msg := Odometry_new |} = inr 5%Z.
Proof. vm_compute. reflexivity. Qed.

Lemma timeSteps_fine : timeSteps 31 0%float lit_0_05 = Some 1%nat.
Proof. vm_compute. reflexivity. Qed.

Lemma predictionValidator_single_row_exhausted_witness :
  let x_1 :=
    matvec 6 (ca_A (F2R lit_0_01)) (array1 [0; 0; 10; 0; 0; 0]) in
  constantAcceleration 0 0 10 0 0 0 31 world_fine
    = (Return ([x_1],
               [madd (sandwich 6 (ca_A (F2R lit_0_01)) zeros)
                  (ca_Q (F2R lit_0_01))]),
       world_fine) /\
  predictionValidator [x_1] world_fine
    = (Return tt, advance world_fine (OutNum 0)).
Proof.
  intros x_1. split.
  - rewrite constantAcceleration_unfold.
    change (T (self world_fine)) with lit_0_05. rewrite timeSteps_fine.
    reflexivity.
  - apply (predictionValidator_single_row_exhausted world_fine x_1 5).
    + exact num_predictions_fine.
    + discriminate.
    + simpl. lia.
Defined.

(** ** The metric is a distance *)

Lemma predictionValidator_window (w : World) (states : list vec) (N : Z) :
  num_predictions (self w) = inr N ->
  (1 <= N)%Z ->
  Z.of_nat (length states) = N ->
  (0 <= VALIDATOR_COUNTER w)%Z ->
  (VALIDATOR_COUNTER w + N <= Z.of_nat (length (ODOM w)))%Z ->
  predictionValidator states w
  = (Return tt,
     advance w
       (OutNum
          (mean_distance (positions states)
             (firstn (Z.to_nat N)
                (skipn (Z.to_nat (VALIDATOR_COUNTER w)) (ODOM w))) N))).
Proof.
  intros HN Hpos Hrows Hc Hlog.
  set (reference := firstn _ _).
  assert (Hlen : length reference = Z.to_nat N).
  { unfold reference. rewrite length_firstn, length_skipn. lia. }
  rewrite predictionValidator_unfold, HN. unfold validator_try.
  rewrite slice_window by lia. fold reference.
  destruct states as [|s1 states]; [simpl in Hrows; lia|].
  fold (positions (s1 :: states)).
  set (p := positions (s1 :: states)).
  assert (Hp : length p = Z.to_nat N).
  { unfold p, positions. rewrite length_map. lia. }
  unfold broadcast_sub. rewrite Hp, Hlen, Nat.eqb_refl.
  rewrite np_sum_distances by congruence.
  unfold mean_distance. now rewrite Hp.
Qed.

Lemma sum_nonneg_zero (n : nat) (f : nat -> R) :
  (forall i, (i < n)%nat -> 0 <= f i) -> sum n f = 0 ->
  forall i, (i < n)%nat -> f i = 0.
Proof.
  induction n as [|n IH]; intros Hf Hs i Hi; [lia|].
  simpl in Hs.
  assert (H1 : 0 <= sum n f) by (apply sum_nonneg; intros; apply Hf; lia).
  assert (H2 : 0 <= f n) by (apply Hf; lia).
  destruct (Nat.eq_dec i n) as [->|Hne]; [lra|].
  apply IH; [intros; apply Hf; lia | lra | lia].
Qed.

Lemma euclid_nonneg (p o : R * R) : 0 <= euclid p o.
Proof. apply sqrt_pos. Qed.

Lemma euclid_zero (p o : R * R) : euclid p o = 0 -> p = o.
Proof.
  unfold euclid. intros H. rewrite <- !Rsqr_pow2 in H.
  apply sqrt_eq_0 in H;
    [|apply Rplus_le_le_0_compat; apply Rle_0_sqr].
  apply Rplus_sqr_eq_0 in H. destruct H as [Hx Hy].
  destruct p as [px py], o as [ox oy]. simpl in Hx, Hy.
  f_equal; lra.
Qed.

(** In the setting of a regular call (horizon [N >= 1], [N] predicted rows,
    the [N] log rows from the cursor on present) the printed value is not
    negative, and it is 0 only when every predicted position is the log
    row it is compared with. *)
Theorem predictionValidator_zero_iff_exact :
  forall (w : World) (states : list vec) (N : Z),
    num_predictions (self w) = inr N ->
    (1 <= N)%Z ->
    Z.of_nat (length states) = N ->
    (0 <= VALIDATOR_COUNTER w)%Z ->
    (VALIDATOR_COUNTER w + N <= Z.of_nat (length (ODOM w)))%Z ->
    let reference :=
      firstn (Z.to_nat N) (skipn (Z.to_nat (VALIDATOR_COUNTER w)) (ODOM w)) in
    exists RMSE : R,
      predictionValidator states w = (Return tt, advance w (OutNum RMSE)) /\
      0 <= RMSE /\
      (RMSE = 0 <-> positions states = reference).
Proof.
  intros w states N HN Hpos Hrows Hc Hlog reference.
  exists (mean_distance (positions states) reference N).
  split; [now apply predictionValidator_window|].
  assert (HNpos : 0 < IZR N) by (apply IZR_lt; lia).
  assert (Hsum : 0 <= sum (Z.to_nat N)
                        (fun i => euclid (nth i (positions states) (0, 0))
                                    (nth i reference (0, 0))))
    by (apply sum_nonneg; intros; apply euclid_nonneg).
  split.
  - unfold mean_distance. apply Rmult_le_pos; [exact Hsum|].
    left. now apply Rinv_0_lt_compat.
  - split.
    + intros H0. unfold mean_distance in H0.
      assert (Hs0 : sum (Z.to_nat N)
                      (fun i => euclid (nth i (positions states) (0, 0))
                                  (nth i reference (0, 0))) = 0).
      { apply (Rmult_eq_reg_r (/ IZR N)).
        - rewrite Rmult_0_l. exact H0.
        - apply Rinv_neq_0_compat. lra. }
      assert (Hlp : length (positions states) = Z.to_nat N)
        by (unfold positions; rewrite length_map; lia).
      assert (Hlr : length reference = Z.to_nat N)
        by (unfold reference; rewrite length_firstn, length_skipn; lia).
      apply (nth_ext _ _ (0, 0) (0, 0)); [congruence|].
      intros i Hi. apply euclid_zero.
      apply (sum_nonneg_zero (Z.to_nat N)
               (fun i => euclid (nth i (positions states) (0, 0))
                           (nth i reference (0, 0)))).
      * intros; apply euclid_nonneg.
      * exact Hs0.
      * lia.
    + intros ->. apply mean_distance_same.
Qed.

Lemma predictionValidator_zero_iff_exact_witness :
  exists RMSE : R,
    predictionValidator states_3s world_logged
      = (Return tt, advance world_logged (OutNum RMSE)) /\
    0 <= RMSE /\
    (RMSE = 0 <-> positions states_3s = repeat (0, 0) 30).
Proof.
  apply (predictionValidator_zero_iff_exact world_logged states_3s 30).
  - exact num_predictions_3s.
  - lia.
  - rewrite states_3s_length. reflexivity.
  - simpl. lia.
  - simpl. lia.
Defined.

(** ** How long a reference log lasts *)

Lemma validate_again_cursor (states : list vec) (n : Z) (j : nat) :
  forall w : World,
    num_predictions (self w) = inr n ->
    self (validate_again states j w) = self w /\
    ODOM (validate_again states j w) = ODOM w /\
    VALIDATOR_COUNTER (validate_again states j w)
      = (VALIDATOR_COUNTER w + Z.of_nat j)%Z.
Proof.
  induction j as [|j IH]; intros w Hn.
  - simpl. repeat split. lia.
  - cbn [validate_again]. rewrite predictionValidator_unfold, Hn.
    destruct (validator_try _ _ n states) as [e|r]; cbn [snd];
      match goal with
      | |- context [validate_again states j (advance w ?p)] =>
          destruct (IH (advance w p)) as (Hs & Ho & Hc); [exact Hn|];
          rewrite Hs, Ho, Hc; cbn [advance self ODOM VALIDATOR_COUNTER];
          repeat split; lia
      end.
Qed.

(** With a horizon of [N >= 3] rows, [N] predicted rows per call and a log
    of [L] rows, the calls made while the cursor is at most [L - N] return
    normally; the call made with the cursor at [L - N + 1] finds [N - 1]
    rows left and raises [UnboundLocalError].  Starting from cursor 0 that
    is the call number [L - N + 2]. *)
Theorem reference_log_lifetime :
  forall (w : World) (states : list vec) (N : Z) (j : nat),
    num_predictions (self w) = inr N ->
    (3 <= N)%Z ->
    Z.of_nat (length states) = N ->
    (0 <= VALIDATOR_COUNTER w)%Z ->
    (VALIDATOR_COUNTER w + N <= Z.of_nat (length (ODOM w)))%Z ->
    let L := Z.of_nat (length (ODOM w)) in
    let last := Z.to_nat (L - N - VALIDATOR_COUNTER w) in
    ((j <= last)%nat ->
     fst (predictionValidator states (validate_again states j w))
       = Return tt) /\
    fst (predictionValidator states (validate_again states (S last) w))
      = Raise UnboundLocalError.
Proof.
  intros w states N j HN H3 Hrows Hc Hlog L last.
  split.
  - intros Hj.
    destruct (validate_again_cursor states N j w HN) as (Hs & Ho & Hcj).
    rewrite (predictionValidator_window _ states N);
      rewrite ?Hs, ?Ho, ?Hcj; try assumption; try reflexivity; lia.
  - destruct (validate_again_cursor states N (S last) w HN)
      as (Hs & Ho & Hcj).
    rewrite predictionValidator_unfold, Hs, HN, Ho, Hcj.
    set (c' := (VALIDATOR_COUNTER w + Z.of_nat (S last))%Z).
    assert (Hc' : c' = (L - N + 1)%Z) by (unfold c', last, L; lia).
    assert (HK : length (slice (ODOM w) c' (c' + N)) = Z.to_nat (N - 1)).
    { unfold slice, clip. fold L.
      destruct (c' <? 0)%Z eqn:E1; [lia|].
      destruct (c' + N <? 0)%Z eqn:E2; [lia|].
      rewrite length_firstn, length_skipn. lia. }
    unfold validator_try.
    destruct states as [|s1 states]; [simpl in Hrows; lia|].
    unfold broadcast_sub. rewrite length_map, HK.
    destruct (Nat.eqb_spec (length (s1 :: states)) (Z.to_nat (N - 1)));
      [lia|].
    destruct (Nat.eqb_spec (length (s1 :: states)) 1); [lia|].
    destruct (Nat.eqb_spec (Z.to_nat (N - 1)) 1); [lia|].
    reflexivity.
Qed.

Lemma reference_log_lifetime_witness :
  fst (predictionValidator states_3s world_logged) = Return tt /\
  fst (predictionValidator states_3s
         (validate_again states_3s 1 world_logged))
    = Raise UnboundLocalError.
Proof.
  assert (H : forall j : nat,
             ((j <= 0)%nat ->
              fst (predictionValidator states_3s
                     (validate_again states_3s j world_logged)) = Return tt) /\
             fst (predictionValidator states_3s
                    (validate_again states_3s 1 world_logged))
               = Raise UnboundLocalError).
  { intros j.
    apply (reference_log_lifetime world_logged states_3s 30 j).
    - exact num_predictions_3s.
    - lia.
    - rewrite states_3s_length. reflexivity.
    - simpl. lia.
    - simpl. lia. }
  split; [exact (proj1 (H 0%nat) (le_n 0)) | exact (proj2 (H 0%nat))].
Defined.

(** ** A horizon that is negative or not a number *)

(** When [0 <= T] is false (a negative [T], or a NaN) the loop body never
    runs: if a square of [dt] overflows before the loop, the model raises
    [OverflowError] all the same; otherwise it returns no state and no
    covariance.  The validator fails on the empty prediction, raising
    [UnboundLocalError] (or the error of [int(T / dt)]). *)
Theorem empty_prediction :
  forall (w : World) (m : model) (fuel : nat),
    PrimFloat.leb 0%float (T (self w)) = false ->
    predict m (S fuel) w
    = match squares m (dt (self w)) with
      | inl _ => (Raise OverflowError, w)
      | inr _ => (Return ([], []), w)
      end /\
    predictionValidator [] w
      = match num_predictions (self w) with
        | inr _ => (Raise UnboundLocalError,
                    advance w (OutStr "Index Error"))
        | inl e => (Raise e, w)
        end.
Proof.
  intros w m fuel HT. split.
  - destruct (squares m (dt (self w))) as [e|[]] eqn:Hsq.
    + now apply (predict_raises m (S fuel) w e).
    + apply (predict_runs m (S fuel) w 0 Hsq).
      * cbn [timeSteps]. now rewrite HT.
      * destruct m; [exact I|]. intros k Hk. lia.
  - rewrite predictionValidator_unfold.
    destruct (num_predictions (self w)); reflexivity.
Qed.

Lemma empty_prediction_witness :
  predict (CTRV 0 0 0 10 1) 1 world_negative
    = (Return ([], []), world_negative) /\
  predict (CTRV 0 0 0 10 1) 1 world_coarse
    = (Raise OverflowError, world_coarse).
Proof.
  split.
  - pose proof (proj1 (empty_prediction world_negative (CTRV 0 0 0 10 1) 0
                         ltac:(vm_compute; reflexivity))) as H.
    change (dt (self world_negative)) with lit_0_1 in H.
    now rewrite squares_0_1 in H.
  - pose proof (proj1 (empty_prediction world_coarse (CTRV 0 0 0 10 1) 0
                         ltac:(vm_compute; reflexivity))) as H.
    replace (squares (CTRV 0 0 0 10 1) (dt (self world_coarse)))
      with (@inl exn unit OverflowError) in H by (vm_compute; reflexivity).
    exact H.
Defined.

(** ** [run] from end to end *)









(** ** The turn rate the turn-rate model divides by *)

Lemma eqb_zero_inv (y : float) :
  PrimFloat.eqb y 0%float = true -> exists s, Prim2SF y = S754_zero s.
Proof.
  rewrite FloatAxioms.eqb_spec.
  replace (Prim2SF 0%float) with (S754_zero false) by reflexivity.
  destruct (Prim2SF y) as [s|s| |s m e]; unfold SFeqb, SFcompare;
    try discriminate.
  - intros _. now exists s.
  - destruct s; discriminate.
  - destruct s; discriminate.
Qed.

Lemma zero_below_threshold (y : float) :
  PrimFloat.eqb y 0%float = true ->
  PrimFloat.ltb (PrimFloat.abs y) lit_0_01 = true.
Proof.
  intros H. destruct (eqb_zero_inv y H) as [s Hs].
  rewrite FloatAxioms.ltb_spec, FloatAxioms.abs_spec, Hs.
  reflexivity.
Qed.

(** A sample whose turn rate is zero ([+0] or [-0]) never reaches the
    turn-rate model, which divides by the turn rate: [run] predicts such a
    sample with the constant-acceleration model. *)
Theorem run_zero_turn_rate :
  forall (euler_from_quaternion : float * float * float * float -> R * R * R)
         (fuel : nat) (w : World),
    let odom := last_odom_msg (self w) in
    PrimFloat.eqb (angular_z odom) 0%float = true ->
    run euler_from_quaternion fuel w
    = run_with
        (CA (F2R (position_x odom)) (F2R (position_y odom))
            (F2R (linear_x odom)) (F2R (linear_y odom)) 0 0)
        fuel w.
Proof.
  intros efq fuel w odom H. rewrite run_unfold. fold odom.
  unfold run_squares, chosen_model. now rewrite (zero_below_threshold _ H).
Qed.

Lemma run_zero_turn_rate_witness :
  run (fun _ => (0, 0, 0)) 31 world_logged
  = run_with (CA (F2R 0%float) (F2R 0%float) (F2R 0%float) (F2R 0%float) 0 0)
      31 world_logged.
Proof.
  apply (run_zero_turn_rate (fun _ => (0, 0, 0)) 31 world_logged).
  reflexivity.
Defined.

(** ** The threshold between the two models *)

(** The binary64 values below the literal [0.01] are the ones below the real
    number 1/100: the literal is read as the binary64 value next above
    1/100, and no binary64 value lies in between. *)

Lemma digits2_pos_bounds (m : positive) :
  (2 ^ (Zpos (digits2_pos m) - 1) <= Zpos m < 2 ^ Zpos (digits2_pos m))%Z.
Proof.
  induction m as [m IH|m IH|]; cbn [digits2_pos].
  - rewrite Pos2Z.inj_succ, Pos2Z.inj_xI.
    replace (Z.succ (Zpos (digits2_pos m)) - 1)%Z
      with (Z.succ (Zpos (digits2_pos m) - 1)) by lia.
    rewrite (Z.pow_succ_r 2 (Zpos (digits2_pos m) - 1)%Z) by lia.
    rewrite (Z.pow_succ_r 2 (Zpos (digits2_pos m))%Z) by lia. lia.
  - rewrite Pos2Z.inj_succ. change (Zpos m~0) with (2 * Zpos m)%Z.
    replace (Z.succ (Zpos (digits2_pos m)) - 1)%Z
      with (Z.succ (Zpos (digits2_pos m) - 1)) by lia.
    rewrite (Z.pow_succ_r 2 (Zpos (digits2_pos m) - 1)%Z) by lia.
    rewrite (Z.pow_succ_r 2 (Zpos (digits2_pos m))%Z) by lia. lia.
  - simpl. lia.
Qed.

Lemma valid_finite (s : bool) (m : positive) (e : Z) :
  valid_binary (S754_finite s m e) = true ->
  (Zpos (digits2_pos m) <= 53 /\
   (Zpos (digits2_pos m) = 53 \/ e = -1074))%Z.
Proof.
  unfold SpecFloat.valid_binary, bounded.
  intros H. apply andb_true_iff in H. destruct H as [H _].
  unfold canonical_mantissa in H. apply Z.eqb_eq in H.
  unfold fexp, SpecFloat.emin, prec, emax in H. lia.
Qed.

Lemma powerRZ2_mono (a b : Z) : (a <= b)%Z -> powerRZ 2 a <= powerRZ 2 b.
Proof.
  intros H. replace b with (a + Z.of_nat (Z.to_nat (b - a)))%Z by lia.
  rewrite powerRZ_add by lra. rewrite <- pow_powerRZ.
  assert (0 < powerRZ 2 a) by (apply powerRZ_lt; lra).
  assert (1 <= 2 ^ Z.to_nat (b - a)) by (apply pow_R1_Rle; lra).
  nra.
Qed.

Lemma powerRZ2_pos (p : positive) : powerRZ 2 (Zpos p) = IZR (2 ^ Zpos p).
Proof.
  unfold powerRZ. rewrite (pow_IZR 2). now rewrite positive_nat_Z.
Qed.

Lemma powerRZ2_neg (p : positive) : powerRZ 2 (Zneg p) = / IZR (2 ^ Zpos p).
Proof.
  unfold powerRZ. rewrite (pow_IZR 2). now rewrite positive_nat_Z.
Qed.


Lemma threshold_finite (m : positive) (e : Z) :
  valid_binary (S754_finite false m e) = true ->
  (SFltb (S754_finite false m e) (Prim2SF lit_0_01) = true <->
   IZR (Zpos m) * powerRZ 2 e < 1 / 100).
Proof.
  intros Hv. apply valid_finite in Hv. destruct Hv as [Hd Hn].
  pose proof (digits2_pos_bounds m) as [Hlo Hhi].
  replace (Prim2SF lit_0_01)
    with (S754_finite false 5764607523034235 (-59)) by reflexivity.
  assert (Hm : (Zpos m < 9007199254740992)%Z).
  { eapply Z.lt_le_trans; [exact Hhi|].
    change 9007199254740992%Z with (2 ^ 53)%Z.
    apply Z.pow_le_mono_r; lia. }
  assert (Hp : 0 < powerRZ 2 e) by (apply powerRZ_lt; lra).
  assert (H0 : 0 < IZR (Zpos m)) by (apply IZR_lt; reflexivity).
  clear Hhi Hd.
  unfold SFltb, SFcompare.
  destruct (Z.compare_spec e (-59)) as [He|He|He].
  - subst e. clear Hlo Hn Hm Hp. rewrite Pos.compare_cont_spec.
    unfold Pos.switch_Eq.
    rewrite powerRZ2_neg.
    replace (2 ^ 59)%Z with 576460752303423488%Z by reflexivity.
    destruct (Pos.compare_spec m 5764607523034235) as [Hc|Hc|Hc].
    + subst m. split; [discriminate|]. intros H. exfalso. lra.
    + split; [intros _|reflexivity].
      assert (Hz : (Zpos m < Z.succ 5764607523034234)%Z) by exact Hc.
      apply Z.lt_succ_r, IZR_le in Hz. lra.
    + split; [discriminate|]. intros H. exfalso.
      assert (Hz : (5764607523034235 < Zpos m)%Z) by exact Hc.
      apply Z.le_succ_l in Hz.
      change (Z.succ 5764607523034235) with 5764607523034236%Z in Hz.
      apply IZR_le in Hz. lra.
  - split; [intros _|reflexivity].
    apply IZR_lt in Hm.
    assert (H1 : powerRZ 2 e <= powerRZ 2 (-60)) by (apply powerRZ2_mono; lia).
    rewrite powerRZ2_neg in H1.
    replace (2 ^ 60)%Z with 1152921504606846976%Z in H1 by reflexivity.
    clear Hlo Hn He.
    set (p := powerRZ 2 e) in *. set (x := IZR (Zpos m)) in *.
    clearbody p x.
    apply Rle_lt_trans with (x * / 1152921504606846976).
    + apply Rmult_le_compat_l; lra.
    + lra.
  - split; [discriminate|]. intros H. exfalso.
    destruct Hn as [Hn|Hn]; [|lia].
    rewrite Hn in Hlo.
    replace (2 ^ (53 - 1))%Z with 4503599627370496%Z in Hlo by reflexivity.
    apply IZR_le in Hlo.
    assert (H1 : powerRZ 2 (-58) <= powerRZ 2 e) by (apply powerRZ2_mono; lia).
    rewrite powerRZ2_neg in H1.
    replace (2 ^ 58)%Z with 288230376151711744%Z in H1 by reflexivity.
    clear Hn He Hm.
    set (p := powerRZ 2 e) in *. set (x := IZR (Zpos m)) in *.
    clearbody p x.
    assert (H2 : 4503599627370496 * / 288230376151711744 <= x * p).
    { apply Rmult_le_compat; lra. }
    lra.
Qed.

Lemma is_finite_inv (y : float) :
  PrimFloat.is_finite y = true ->
  (exists s, Prim2SF y = S754_zero s) \/
  (exists s m e, Prim2SF y = S754_finite s m e).
Proof.
  unfold PrimFloat.is_finite, PrimFloat.is_nan, PrimFloat.is_infinity.
  rewrite !FloatAxioms.eqb_spec, FloatAxioms.abs_spec.
  replace (Prim2SF infinity) with (S754_infinity false) by reflexivity.
  destruct (Prim2SF y) as [s|s| |s m e].
  - intros _. left. now exists s.
  - destruct s; discriminate.
  - discriminate.
  - intros _. right. now exists s, m, e.
Qed.

Lemma threshold_exact (y : float) :
  PrimFloat.is_finite y = true ->
  (PrimFloat.ltb (PrimFloat.abs y) lit_0_01 = true
   <-> Rabs (F2R y) < 1 / 100).
Proof.
  intros Hf. rewrite FloatAxioms.ltb_spec, FloatAxioms.abs_spec.
  pose proof (FloatAxioms.Prim2SF_valid y) as Hv. unfold F2R.
  destruct (is_finite_inv y Hf) as [[s E]|[s [m [e E]]]]; rewrite E in *.
  - rewrite Rabs_R0. split; [intros _; lra|intros _; reflexivity].
  - cbn [SFabs].
    assert (Hv' : valid_binary (S754_finite false m e) = true) by exact Hv.
    rewrite (threshold_finite m e Hv').
    assert (Hp : 0 < powerRZ 2 e) by (apply powerRZ_lt; lra).
    assert (H0 : 0 < IZR (Zpos m)) by (apply IZR_lt; reflexivity).
    assert (Hpos : 0 < IZR (Zpos m) * powerRZ 2 e)
      by (apply Rmult_lt_0_compat; assumption).
    replace (Rabs ((if s then -1 else 1) * IZR (Zpos m) * powerRZ 2 e))
      with (IZR (Zpos m) * powerRZ 2 e); [reflexivity|].
    destruct s.
    + replace (-1 * IZR (Zpos m) * powerRZ 2 e)
        with (- (IZR (Zpos m) * powerRZ 2 e)) by ring.
      rewrite Rabs_Ropp, Rabs_pos_eq; lra.
    + rewrite Rmult_1_l, Rabs_pos_eq; lra.
Qed.

(** The test [abs(yawRate) < 0.01] of [run] is exact over the reals: for a
    sample whose turn rate is finite, [run] takes the constant-acceleration
    branch when the turn rate is below 1/100 in absolute value, and the
    turn-rate branch when it is 1/100 or more; the rounding of the literal
    [0.01] moves no sample to the other side.  On the turn-rate branch
    [run] raises [OverflowError] if the square of a velocity component
    overflows, and otherwise calls the turn-rate model (stated for a
    finite speed), with a turn rate that is never zero. *)
Theorem run_threshold_exact :
  forall (euler_from_quaternion : float * float * float * float -> R * R * R)
         (fuel : nat) (w : World),
    let odom := last_odom_msg (self w) in
    let yawRate := angular_z odom in
    PrimFloat.is_finite yawRate = true ->
    (Rabs (F2R yawRate) < 1 / 100 ->
     run euler_from_quaternion fuel w
     = run_with
         (CA (F2R (position_x odom)) (F2R (position_y odom))
             (F2R (linear_x odom)) (F2R (linear_y odom)) 0 0)
         fuel w) /\
    (1 / 100 <= Rabs (F2R yawRate) ->
     match speed_squares odom with
     | inl _ => run euler_from_quaternion fuel w = (Raise OverflowError, w)
     | inr _ =>
         PrimFloat.is_finite (speed_b64 odom) = true ->
         run euler_from_quaternion fuel w
         = run_with
             (CTRV (F2R (position_x odom)) (F2R (position_y odom))
                (snd (euler_from_quaternion
                        (orientation_x odom, orientation_y odom,
                         orientation_z odom, orientation_w odom)))
                (F2R (speed_b64 odom)) (F2R yawRate))
             fuel w
     end /\
     F2R yawRate <> 0).
Proof.
  intros efq fuel w odom yawRate Hf.
  pose proof (threshold_exact yawRate Hf) as Hthr.
  rewrite run_unfold. fold odom. unfold run_squares, chosen_model.
  fold yawRate.
  split; intros H.
  - apply Hthr in H. now rewrite H.
  - split.
    + destruct (PrimFloat.ltb (PrimFloat.abs yawRate) lit_0_01).
      * exfalso. assert (Rabs (F2R yawRate) < 1 / 100) by now apply Hthr.
        lra.
      * destruct (speed_squares odom); [reflexivity|]. intros _.
        reflexivity.
    + intros Hz. rewrite Hz, Rabs_R0 in H. lra.
Qed.

Lemma run_threshold_exact_witness :
  let odom := last_odom_msg (self world_turning) in
  let yawRate := angular_z odom in
  (Rabs (F2R yawRate) < 1 / 100 ->
   run (fun _ => (0, 0, 0)) 31 world_turning
   = run_with
       (CA (F2R (position_x odom)) (F2R (position_y odom))
           (F2R (linear_x odom)) (F2R (linear_y odom)) 0 0)
       31 world_turning) /\
  (1 / 100 <= Rabs (F2R yawRate) ->
   match speed_squares odom with
   | inl _ =>
       run (fun _ => (0, 0, 0)) 31 world_turning
       = (Raise OverflowError, world_turning)
   | inr _ =>
       PrimFloat.is_finite (speed_b64 odom) = true ->
       run (fun _ => (0, 0, 0)) 31 world_turning
       = run_with
           (CTRV (F2R (position_x odom)) (F2R (position_y odom))
              (snd ((fun _ : float * float * float * float => (0, 0, 0))
                      (orientation_x odom, orientation_y odom,
                       orientation_z odom, orientation_w odom)))
              (F2R (speed_b64 odom)) (F2R yawRate))
           31 world_turning
   end /\
   F2R yawRate <> 0).
Proof.
  apply (run_threshold_exact (fun _ => (0, 0, 0)) 31 world_turning).
  reflexivity.
Defined.
